(** * Affective core: drives, interoception, tension and bounded histories

    A shallow embedding of [src/affective_core.py].  Python floats are IEEE 754
    binary64 values, modelled by the kernel's primitive floats, so every
    arithmetic step below rounds exactly as the program's does.  Objects that
    the program mutates in place are threaded explicitly: an operation takes
    the core and returns the core it leaves behind, together with its result
    or the exception it raised. *)

From Stdlib Require Import ZArith List String Bool Lia Floats.
Import ListNotations.

Set Warnings "-inexact-float".
Local Open Scope list_scope.

(** ** Python values, dictionaries and exceptions *)

(** The values a caller can put in a stimuli or changes dictionary: a float
    (every float: infinities and NaN are floats too), or something that is
    not a number, on which the arithmetic of the program raises. *)
Inductive pyval :=
| PyFloat (f : float)
| PyStr (s : string)
| PyNone.

(** Dictionary keys: a member of the [DriveType] enumeration or a string. *)
Inductive DriveType := SEEK | AVOID | REST | CARE | PLAY | RAGE | LUST.

Inductive pykey :=
| KDrive (d : DriveType)
| KStr (s : string).

Inductive pyerr := TypeError.

(** What a call leaves behind besides the state: a value or a raised
    exception. *)
Inductive result (A : Type) :=
| Ok (a : A)
| Raise (e : pyerr).
Arguments Ok {A} a.
Arguments Raise {A} e.

Definition DriveType_eqb (a b : DriveType) : bool :=
  match a, b with
  | SEEK, SEEK | AVOID, AVOID | REST, REST | CARE, CARE
  | PLAY, PLAY | RAGE, RAGE | LUST, LUST => true
  | _, _ => false
  end.

Definition pykey_eqb (a b : pykey) : bool :=
  match a, b with
  | KDrive x, KDrive y => DriveType_eqb x y
  | KStr x, KStr y => String.eqb x y
  | _, _ => false
  end.

(** [Enum.name] *)
Definition name (d : DriveType) : string :=
  match d with
  | SEEK => "SEEK" | AVOID => "AVOID" | REST => "REST" | CARE => "CARE"
  | PLAY => "PLAY" | RAGE => "RAGE" | LUST => "LUST"
  end%string.

(** A [dict] in insertion order; its keys are pairwise distinct. *)
Definition dict (K V : Type) := list (K * V).

(** [d.get(k, default)] *)
Fixpoint dict_get {V : Type} (d : dict pykey V) (k : pykey) (default : V) : V :=
  match d with
  | [] => default
  | (k', v) :: rest => if pykey_eqb k' k then v else dict_get rest k default
  end.

(** [np.clip(x, lo, hi)] on scalars, the clamp of the specification: numpy
    returns a NaN argument as it is, and raises any other to [lo] and then
    lowers it to [hi]. *)
Definition clip (x lo hi : float) : float :=
  if is_nan x then x
  else
    let m := if (lo <? x)%float then x else lo in
    if (m <? hi)%float then m else hi.

(** [lst.append(x)] followed by [if len(lst) > bound: lst.pop(0)] *)
Definition append_bounded {A : Type} (bound : nat) (lst : list A) (x : A) : list A :=
  let lst' := lst ++ [x] in
  if (bound <? List.length lst')%nat then tl lst' else lst'.

(** ** DriveState *)
Module DriveState.

Record t := mk {
  drive_type : DriveType;
  current_level : float;
  optimal_level : float;
  urgency : float;
  satisfaction_history : list float
}.

Definition tension (self : t) : float :=
  abs (current_level self - optimal_level self).

(** [update]: the product [stimulus * delta_time] is the first step that
    looks at [stimulus], and it raises for a value that is not a number,
    before any field is assigned. *)
Definition update (self : t) (stimulus : pyval) (delta_time : float)
  : t * result unit :=
  let homeostasis := ((optimal_level self - current_level self) * 0.1)%float in
  match stimulus with
  | PyFloat s =>
      let stimulus_effect := (s * delta_time)%float in
      let level :=
        clip (current_level self + homeostasis + stimulus_effect) 0.0 1.0 in
      let self1 := mk (drive_type self) level (optimal_level self)
                      (urgency self) (satisfaction_history self) in
      let self2 := mk (drive_type self1) (current_level self1)
                      (optimal_level self1) (tension self1)
                      (satisfaction_history self1) in
      (mk (drive_type self2) (current_level self2) (optimal_level self2)
          (urgency self2)
          (append_bounded 100 (satisfaction_history self2) (current_level self2)),
       Ok tt)
  | _ => (self, Raise TypeError)
  end.

End DriveState.

(** ** InteroceptiveSignal *)
Module InteroceptiveSignal.

Record t := mk {
  signal_type : string;
  current_value : float;
  optimal_range : float * float;
  affective_weight : float
}.

Definition is_optimal (self : t) : bool :=
  let '(low, high) := optimal_range self in
  ((low <=? current_value self) && (current_value self <=? high))%float.

Definition deviation (self : t) : float :=
  let '(low, high) := optimal_range self in
  if (current_value self <? low)%float then (low - current_value self)%float
  else if (high <? current_value self)%float then (current_value self - high)%float
  else 0.0%float.

End InteroceptiveSignal.

(** ** AffectiveCore *)
Module AffectiveCore.

(** One entry of [affective_history]. *)
Record AffectiveRecord := mkAffectiveRecord {
  ar_timestamp : nat;
  ar_tension : float;
  ar_drive_states : dict string float;
  ar_interoceptive_states : dict string float
}.

(** The dictionaries built by [get_affective_summary]. *)
Record DriveSummary := mkDriveSummary {
  ds_level : float;
  ds_urgency : float;
  ds_tension : float
}.

Record SignalSummary := mkSignalSummary {
  ss_value : float;
  ss_optimal : bool;
  ss_deviation : float
}.

Record Summary := mkSummary {
  sm_current_tension : float;
  sm_affective_conflict : float;
  sm_dominant_drive : option string;
  sm_dominant_urgency : float;
  sm_drive_states : dict string DriveSummary;
  sm_interoceptive_states : dict string SignalSummary;
  sm_developmental_stage : Z
}.

(** One entry of [decision_history]. *)
Record DecisionRecord := mkDecisionRecord {
  dr_timestamp : nat;
  dr_context : dict pykey pyval;
  dr_choice : string;
  dr_affective_state : Summary
}.

Record t := mk {
  drives : dict DriveType DriveState.t;
  interoceptive_signals : dict string InteroceptiveSignal.t;
  affective_history : list AffectiveRecord;
  decision_history : list DecisionRecord;
  current_tension : float;
  developmental_stage : Z
}.

Definition set_drives (self : t) ds :=
  mk ds (interoceptive_signals self) (affective_history self)
     (decision_history self) (current_tension self) (developmental_stage self).

Definition set_interoceptive_signals (self : t) sigs :=
  mk (drives self) sigs (affective_history self)
     (decision_history self) (current_tension self) (developmental_stage self).

Definition set_affective_history (self : t) h :=
  mk (drives self) (interoceptive_signals self) h
     (decision_history self) (current_tension self) (developmental_stage self).

Definition set_decision_history (self : t) h :=
  mk (drives self) (interoceptive_signals self) (affective_history self)
     h (current_tension self) (developmental_stage self).

Definition set_current_tension (self : t) x :=
  mk (drives self) (interoceptive_signals self) (affective_history self)
     (decision_history self) x (developmental_stage self).

Definition set_developmental_stage (self : t) n :=
  mk (drives self) (interoceptive_signals self) (affective_history self)
     (decision_history self) (current_tension self) n.

Definition _initialize_drives : dict DriveType DriveState.t :=
  [ (SEEK,  DriveState.mk SEEK  0.5 0.6  0.0 []);
    (AVOID, DriveState.mk AVOID 0.3 0.1  0.0 []);
    (REST,  DriveState.mk REST  0.5 0.7  0.0 []);
    (CARE,  DriveState.mk CARE  0.4 0.5  0.0 []);
    (PLAY,  DriveState.mk PLAY  0.3 0.4  0.0 []);
    (RAGE,  DriveState.mk RAGE  0.1 0.05 0.0 []);
    (LUST,  DriveState.mk LUST  0.2 0.3  0.0 []) ]%float.

Definition _initialize_interoception : dict string InteroceptiveSignal.t :=
  [ ("energy"%string,
     InteroceptiveSignal.mk "energy" 0.8%float (0.6, 0.9)%float 0.9%float);
    ("integrity"%string,
     InteroceptiveSignal.mk "integrity" 1.0%float (0.8, 1.0)%float 1.0%float);
    ("comfort"%string,
     InteroceptiveSignal.mk "comfort" 0.7%float (0.5, 0.8)%float 0.6%float);
    ("social_connection"%string,
     InteroceptiveSignal.mk "social_connection" 0.5%float (0.4, 0.7)%float 0.7%float) ].

(** [__init__] *)
Definition init : t :=
  mk _initialize_drives _initialize_interoception [] [] 0.0%float 1%Z.

Definition _compute_interoceptive_tension (self : t) : float :=
  fold_left
    (fun tension '(_, signal) =>
       if negb (InteroceptiveSignal.is_optimal signal) then
         let deviation := InteroceptiveSignal.deviation signal in
         let normalized_tension :=
           (deviation * InteroceptiveSignal.affective_weight signal)%float in
         (tension + normalized_tension)%float
       else tension)
    (interoceptive_signals self) 0.0%float.

(** The loop of [update_drives] over [self.drives.items()]: the drives
    already visited stay updated when a later one raises. *)
Fixpoint update_drives_loop (ds : dict DriveType DriveState.t)
    (external_stimuli : dict pykey pyval) (delta_time : float)
    (total_tension : float) : dict DriveType DriveState.t * result float :=
  match ds with
  | [] => ([], Ok total_tension)
  | (drive_type, drive_state) :: rest =>
      let stimulus := dict_get external_stimuli (KDrive drive_type) (PyFloat 0.0) in
      match DriveState.update drive_state stimulus delta_time with
      | (drive_state', Raise e) => ((drive_type, drive_state') :: rest, Raise e)
      | (drive_state', Ok _) =>
          let total_tension' :=
            (total_tension
             + DriveState.urgency drive_state' * DriveState.tension drive_state')%float in
          let '(rest', r) :=
            update_drives_loop rest external_stimuli delta_time total_tension' in
          ((drive_type, drive_state') :: rest', r)
      end
  end.

Definition update_drives (self : t) (external_stimuli : dict pykey pyval)
    (delta_time : float) : t * result float :=
  let '(ds, r) :=
    update_drives_loop (drives self) external_stimuli delta_time 0.0%float in
  let self1 := set_drives self ds in
  match r with
  | Raise e => (self1, Raise e)
  | Ok total_tension =>
      let interoceptive_tension := _compute_interoceptive_tension self1 in
      let total_tension := (total_tension + interoceptive_tension)%float in
      let self2 := set_current_tension self1 total_tension in
      let entry :=
        mkAffectiveRecord
          (List.length (affective_history self2))
          total_tension
          (map (fun '(drive, state) => (name drive, DriveState.current_level state))
               (drives self2))
          (map (fun '(nm, signal) => (nm, InteroceptiveSignal.current_value signal))
               (interoceptive_signals self2)) in
      (set_affective_history self2
         (append_bounded 1000 (affective_history self2) entry),
       Ok total_tension)
  end.

(** [signal_name in self.interoceptive_signals] followed by the assignment
    to the signal found. *)
Fixpoint update_signal (sigs : dict string InteroceptiveSignal.t)
    (signal_name : string) (change : float) : dict string InteroceptiveSignal.t :=
  match sigs with
  | [] => []
  | (nm, s) :: rest =>
      if String.eqb nm signal_name then
        (nm, InteroceptiveSignal.mk
               (InteroceptiveSignal.signal_type s)
               (clip (InteroceptiveSignal.current_value s + change) 0.0 1.0)
               (InteroceptiveSignal.optimal_range s)
               (InteroceptiveSignal.affective_weight s)) :: rest
      else (nm, s) :: update_signal rest signal_name change
  end.

Definition has_signal (sigs : dict string InteroceptiveSignal.t) (k : pykey) : bool :=
  match k with
  | KStr nm => existsb (fun '(nm', _) => String.eqb nm' nm) sigs
  | KDrive _ => false
  end.

Fixpoint update_interoception_loop (sigs : dict string InteroceptiveSignal.t)
    (internal_changes : dict pykey pyval)
  : dict string InteroceptiveSignal.t * result unit :=
  match internal_changes with
  | [] => (sigs, Ok tt)
  | (signal_name, change) :: rest =>
      if has_signal sigs signal_name then
        match signal_name, change with
        | KStr nm, PyFloat c =>
            update_interoception_loop (update_signal sigs nm c) rest
        | _, _ => (sigs, Raise TypeError)
        end
      else update_interoception_loop sigs rest
  end.

Definition update_interoception (self : t) (internal_changes : dict pykey pyval)
  : t * result unit :=
  let '(sigs, r) :=
    update_interoception_loop (interoceptive_signals self) internal_changes in
  (set_interoceptive_signals self sigs, r).

(** The body of the loop of [get_dominant_drive]. *)
Definition dominant_step (acc : option DriveType * float)
    (item : DriveType * DriveState.t) : option DriveType * float :=
  let '(most_urgent_drive, highest_urgency) := acc in
  let '(drive_type, drive_state) := item in
  if (highest_urgency <? DriveState.urgency drive_state)%float
  then (Some drive_type, DriveState.urgency drive_state)
  else (most_urgent_drive, highest_urgency).

Definition get_dominant_drive (self : t) : option DriveType * float :=
  fold_left dominant_step (drives self) (None, (-1.0)%float).

Definition _drives_opposed (drive1 drive2 : DriveType) : bool :=
  let opposed_pairs := [(SEEK, AVOID); (RAGE, CARE); (PLAY, REST)] in
  let mem p :=
    existsb (fun q => DriveType_eqb (fst p) (fst q) && DriveType_eqb (snd p) (snd q))
            opposed_pairs in
  mem (drive1, drive2) || mem (drive2, drive1).

(** The two nested loops of [compute_affective_conflict]: [rest] is
    [urgent_drives[i+1:]]. *)
Fixpoint conflict_loop (urgent_drives : list (DriveType * DriveState.t))
    (conflict : float) : float :=
  match urgent_drives with
  | [] => conflict
  | (drive1, state1) :: rest =>
      conflict_loop rest
        (fold_left
           (fun conflict '(drive2, state2) =>
              if _drives_opposed drive1 drive2
              then (conflict + DriveState.urgency state1 * DriveState.urgency state2)%float
              else conflict)
           rest conflict)
  end.

Definition compute_affective_conflict (self : t) : float :=
  let urgent_drives :=
    filter (fun '(_, drive_state) => (0.3 <? DriveState.urgency drive_state)%float)
           (drives self) in
  if (List.length urgent_drives <? 2)%nat then 0.0%float
  else conflict_loop urgent_drives 0.0%float.

Definition get_affective_summary (self : t) : Summary :=
  let '(dominant_drive, urgency) := get_dominant_drive self in
  mkSummary
    (current_tension self)
    (compute_affective_conflict self)
    (option_map name dominant_drive)
    urgency
    (map (fun '(drive, state) =>
            (name drive,
             mkDriveSummary (DriveState.current_level state)
                            (DriveState.urgency state)
                            (DriveState.tension state)))
         (drives self))
    (map (fun '(nm, signal) =>
            (nm,
             mkSignalSummary (InteroceptiveSignal.current_value signal)
                             (InteroceptiveSignal.is_optimal signal)
                             (InteroceptiveSignal.deviation signal)))
         (interoceptive_signals self))
    (developmental_stage self).

Definition record_decision (self : t) (decision_context : dict pykey pyval)
    (choice : string) : t :=
  let entry :=
    mkDecisionRecord (List.length (decision_history self)) decision_context choice
                     (get_affective_summary self) in
  set_decision_history self (append_bounded 500 (decision_history self) entry).

(** [self.drives[k].optimal_level = v] *)
Definition set_optimal (ds : dict DriveType DriveState.t) (k : DriveType) (v : float)
  : dict DriveType DriveState.t :=
  map (fun '(k', s) =>
         if DriveType_eqb k' k
         then (k', DriveState.mk (DriveState.drive_type s) (DriveState.current_level s)
                                 v (DriveState.urgency s)
                                 (DriveState.satisfaction_history s))
         else (k', s))
      ds.

Definition advance_developmental_stage (self : t) : t :=
  if (developmental_stage self <? 3)%Z then
    let self1 := set_developmental_stage self (developmental_stage self + 1)%Z in
    if (developmental_stage self1 =? 2)%Z then
      set_drives self1
        (set_optimal (set_optimal (drives self1) SEEK 0.7%float) PLAY 0.6%float)
    else if (developmental_stage self1 =? 3)%Z then
      set_drives self1
        (map (fun '(k, drive) =>
                (k, DriveState.mk (DriveState.drive_type drive)
                                  (DriveState.current_level drive)
                                  0.5%float (DriveState.urgency drive)
                                  (DriveState.satisfaction_history drive)))
             (drives self1))
    else self1
  else self.

End AffectiveCore.

Import AffectiveCore.

(** ** Sequences of calls on a core *)

(** The public operations an external caller can invoke. *)
Inductive op :=
| UpdateDrives (external_stimuli : dict pykey pyval) (delta_time : float)
| UpdateInteroception (internal_changes : dict pykey pyval)
| GetDominantDrive
| ComputeAffectiveConflict
| GetAffectiveSummary
| RecordDecision (decision_context : dict pykey pyval) (choice : string)
| AdvanceDevelopmentalStage.

(** The core a call leaves behind, whether it returned or raised.  The three
    queries assign to no attribute of the core or of its drives and signals. *)
Definition step (self : AffectiveCore.t) (o : op) : AffectiveCore.t :=
  match o with
  | UpdateDrives external_stimuli delta_time =>
      fst (update_drives self external_stimuli delta_time)
  | UpdateInteroception internal_changes =>
      fst (update_interoception self internal_changes)
  | GetDominantDrive | ComputeAffectiveConflict | GetAffectiveSummary => self
  | RecordDecision decision_context choice =>
      record_decision self decision_context choice
  | AdvanceDevelopmentalStage => advance_developmental_stage self
  end.

(** The core after a sequence of calls on a freshly constructed one. *)
Definition run (ops : list op) : AffectiveCore.t := fold_left step ops init.

(** ** Vocabulary of the statements *)

(** The members of [DriveType] in definition order, which is the order in
    which [self.drives] is built and iterated. *)
Definition all_drive_types : list DriveType :=
  [SEEK; AVOID; REST; CARE; PLAY; RAGE; LUST].

Definition signal_names : list string :=
  ["energy"; "integrity"; "comfort"; "social_connection"]%string.

Definition is_numeric (v : pyval) : bool :=
  match v with PyFloat _ => true | _ => false end.

(** A mapping all of whose values are numbers. *)
Definition numeric_dict (d : dict pykey pyval) : bool :=
  forallb (fun '(_, v) => is_numeric v) d.

Definition is_drive_key (k : pykey) : bool :=
  match k with KDrive _ => true | KStr _ => false end.

(** The stimulus [update_drives] hands to the drive of kind [k]. *)
Definition stimulus_of (external_stimuli : dict pykey pyval) (k : DriveType) : pyval :=
  dict_get external_stimuli (KDrive k) (PyFloat 0.0).

(** The drive of kind [k] after its update, when the update returns. *)
Definition updated (external_stimuli : dict pykey pyval) (delta_time : float)
    (entry : DriveType * DriveState.t) : DriveType * DriveState.t :=
  (fst entry,
   fst (DriveState.update (snd entry) (stimulus_of external_stimuli (fst entry)) delta_time)).

(** The claimed total of [update_drives], as the specification words it: the
    sum over the drives of urgency times tension, in iteration order, ... *)
Definition drive_tension_sum (ds : dict DriveType DriveState.t) : float :=
  fold_left
    (fun acc '(_, st) => (acc + DriveState.urgency st * DriveState.tension st)%float)
    ds 0.0%float.

(** ... and the sum over the signals outside their optimal range of
    deviation times weight. *)
Definition interoceptive_sum (sigs : dict string InteroceptiveSignal.t) : float :=
  fold_left
    (fun acc sg =>
       (acc + InteroceptiveSignal.deviation sg * InteroceptiveSignal.affective_weight sg)%float)
    (filter (fun sg => negb (InteroceptiveSignal.is_optimal sg)) (map snd sigs))
    0.0%float.

(** The conflict measure as the specification words it. *)
Definition unordered_opposed (a b : DriveType) : bool :=
  match a, b with
  | SEEK, AVOID | AVOID, SEEK
  | RAGE, CARE | CARE, RAGE
  | PLAY, REST | REST, PLAY => true
  | _, _ => false
  end.

(** [self.drives[k]] *)
Fixpoint drive_of (ds : dict DriveType DriveState.t) (k : DriveType) : option DriveState.t :=
  match ds with
  | [] => None
  | (k', st) :: rest => if DriveType_eqb k' k then Some st else drive_of rest k
  end.

Definition urgency_of (self : AffectiveCore.t) (k : DriveType) : float :=
  match drive_of (drives self) k with
  | Some st => DriveState.urgency st
  | None => 0.0%float
  end.

Definition is_urgent (self : AffectiveCore.t) (k : DriveType) : bool :=
  (0.3 <? urgency_of self k)%float.

(** Every unordered pair of a list, the earlier member first. *)
Fixpoint unordered_pairs {A : Type} (l : list A) : list (A * A) :=
  match l with
  | [] => []
  | x :: rest => map (fun y => (x, y)) rest ++ unordered_pairs rest
  end.

Definition conflict_spec (self : AffectiveCore.t) : float :=
  if (List.length (filter (is_urgent self) all_drive_types) <? 2)%nat then 0.0%float
  else
    fold_left
      (fun acc '(a, b) =>
         if unordered_opposed a b && is_urgent self a && is_urgent self b
         then (acc + urgency_of self a * urgency_of self b)%float
         else acc)
      (unordered_pairs all_drive_types) 0.0%float.

(** A drive with its optimal level replaced. *)
Definition with_optimal (st : DriveState.t) (v : float) : DriveState.t :=
  DriveState.mk (DriveState.drive_type st) (DriveState.current_level st) v
                (DriveState.urgency st) (DriveState.satisfaction_history st).

(** What one opposed pair adds to the running conflict. *)
Definition opposed_term (self : AffectiveCore.t) (a b : DriveType) (acc : float) : float :=
  if is_urgent self a && is_urgent self b
  then (acc + urgency_of self a * urgency_of self b)%float
  else acc.

(** A number of the unit interval. *)
Definition in01 (x : float) : bool := ((0 <=? x) && (x <=? 1))%float.

(** The stimulus effect of every drive is a number: no product
    [stimulus * delta_time] of the call is a NaN. *)
Definition effect_ok (external_stimuli : dict pykey pyval) (delta_time : float)
    (k : DriveType) : bool :=
  match stimulus_of external_stimuli k with
  | PyFloat s => negb (is_nan (s * delta_time))
  | _ => true
  end.

(** The change sent to a signal of the core is not a NaN. *)
Definition change_ok (entry : pykey * pyval) : bool :=
  match entry with
  | (KStr nm, PyFloat c) =>
      negb (existsb (String.eqb nm) signal_names) || negb (is_nan c)
  | _ => true
  end.

Definition nan_free (o : op) : bool :=
  match o with
  | UpdateDrives external_stimuli delta_time =>
      forallb (effect_ok external_stimuli delta_time) all_drive_types
  | UpdateInteroception internal_changes => forallb change_ok internal_changes
  | _ => true
  end.

(** ** Invariants *)

(** The key sets of the two dictionaries never change. *)
Definition wf (self : AffectiveCore.t) : Prop :=
  map fst (drives self) = all_drive_types
  /\ map fst (interoceptive_signals self) = signal_names.

(** The three histories stay within their bounds. *)
Definition hist_inv (self : AffectiveCore.t) : Prop :=
  Forall (fun entry =>
            (List.length (DriveState.satisfaction_history (snd entry)) <= 100)%nat)
         (drives self)
  /\ (List.length (affective_history self) <= 1000)%nat
  /\ (List.length (decision_history self) <= 500)%nat.

(** A drive whose level and set point are in the unit interval and whose
    urgency is a non-negative number. *)
Definition drive_num (st : DriveState.t) : Prop :=
  in01 (DriveState.current_level st) = true
  /\ in01 (DriveState.optimal_level st) = true
  /\ (0 <=? DriveState.urgency st)%float = true.

Definition num_inv (self : AffectiveCore.t) : Prop :=
  Forall (fun entry => drive_num (snd entry)) (drives self)
  /\ Forall (fun entry => in01 (InteroceptiveSignal.current_value (snd entry)) = true)
            (interoceptive_signals self).

(** ** Vocabulary of the further properties *)

(** [self.interoceptive_signals[nm]] *)
Fixpoint signal_of (sigs : dict string InteroceptiveSignal.t) (nm : string)
  : option InteroceptiveSignal.t :=
  match sigs with
  | [] => None
  | (nm', sg) :: rest => if String.eqb nm' nm then Some sg else signal_of rest nm
  end.

(** A signal with its value replaced. *)
Definition with_value (sg : InteroceptiveSignal.t) (v : float) : InteroceptiveSignal.t :=
  InteroceptiveSignal.mk (InteroceptiveSignal.signal_type sg) v
                         (InteroceptiveSignal.optimal_range sg)
                         (InteroceptiveSignal.affective_weight sg).

(** The fields of a signal that no method assigns. *)
Definition signal_constants (entry : string * InteroceptiveSignal.t)
  : string * string * (float * float) * float :=
  (fst entry, InteroceptiveSignal.signal_type (snd entry),
   InteroceptiveSignal.optimal_range (snd entry),
   InteroceptiveSignal.affective_weight (snd entry)).

Definition is_advance (o : op) : bool :=
  match o with AdvanceDevelopmentalStage => true | _ => false end.


(** An [update_drives] call whose seven stimuli are numbers. *)
Definition is_numeric_update (o : op) : bool :=
  match o with
  | UpdateDrives external_stimuli _ =>
      forallb (fun k => is_numeric (stimulus_of external_stimuli k)) all_drive_types
  | _ => false
  end.

(** The optimal level that [_initialize_drives] gives a kind. *)
Definition initial_optimal (k : DriveType) : float :=
  match drive_of _initialize_drives k with
  | Some st => DriveState.optimal_level st
  | None => 0.0%float
  end.

(** The optimal level of a kind at a developmental stage. *)
Definition optimal_at_stage (stage : Z) (k : DriveType) : float :=
  if (stage =? 1)%Z then initial_optimal k
  else if (stage =? 2)%Z then
    match k with
    | SEEK => 0.7%float
    | PLAY => 0.6%float
    | _ => initial_optimal k
    end
  else 0.5%float.


(** The stage is one of 1, 2, 3 and the optimal levels are those of the
    stage. *)
Definition stage_inv (self : AffectiveCore.t) : Prop :=
  (1 <= developmental_stage self <= 3)%Z
  /\ Forall (fun entry =>
              DriveState.optimal_level (snd entry) =
              optimal_at_stage (developmental_stage self) (fst entry))
           (drives self).

(** The level that [_initialize_drives] gives a kind. *)
Definition initial_level (k : DriveType) : float :=
  match drive_of _initialize_drives k with
  | Some st => DriveState.current_level st
  | None => 0.0%float
  end.

Definition is_update (o : op) : bool :=
  match o with UpdateDrives _ _ => true | _ => false end.

(** A call that is not an [update_drives] with a stimulus that is not a
    number. *)
Definition numeric_call (o : op) : bool :=
  match o with
  | UpdateDrives external_stimuli _ =>
      forallb (fun k => is_numeric (stimulus_of external_stimuli k)) all_drive_types
  | _ => true
  end.

(** The kinds that the loop of [update_drives] visits up to and including
    [k]. *)
Definition kinds_through (k : DriveType) : list DriveType :=
  match k with
  | SEEK => [SEEK]
  | AVOID => [SEEK; AVOID]
  | REST => [SEEK; AVOID; REST]
  | CARE => [SEEK; AVOID; REST; CARE]
  | PLAY => [SEEK; AVOID; REST; CARE; PLAY]
  | RAGE => [SEEK; AVOID; REST; CARE; PLAY; RAGE]
  | LUST => [SEEK; AVOID; REST; CARE; PLAY; RAGE; LUST]
  end.

(** The loop of [update_drives] gets as far as updating the drive of kind
    [k]: the stimuli of [k] and of the kinds before it are numbers. *)
Definition reached (external_stimuli : dict pykey pyval) (k : DriveType) : bool :=
  forallb (fun k' => is_numeric (stimulus_of external_stimuli k')) (kinds_through k).

(** An [update_drives] call that updates the drive of kind [k]. *)
Definition updates_drive (k : DriveType) (o : op) : bool :=
  match o with
  | UpdateDrives external_stimuli _ => reached external_stimuli k
  | _ => false
  end.

(** A snapshot or summary that lists the seven drives and the four signals
    under their names. *)
Definition well_keyed_record (entry : AffectiveRecord) : Prop :=
  map fst (ar_drive_states entry) = map name all_drive_types
  /\ map fst (ar_interoceptive_states entry) = signal_names.

Definition well_keyed_summary (sm : Summary) : Prop :=
  map fst (sm_drive_states sm) = map name all_drive_types
  /\ map fst (sm_interoceptive_states sm) = signal_names
  /\ (1 <= sm_developmental_stage sm <= 3)%Z.

(** A float that is zero, positive or plus infinity. *)
Definition nn (x : spec_float) : Prop :=
  match x with
  | S754_zero _ => True
  | S754_finite false _ _ => True
  | S754_infinity false => True
  | _ => False
  end.

(** A signal whose range and weight lie in the unit interval, as those of
    the four signals of the core do. *)
Definition signal_constants_ok (entry : string * InteroceptiveSignal.t) : bool :=
  in01 (fst (InteroceptiveSignal.optimal_range (snd entry)))
  && in01 (snd (InteroceptiveSignal.optimal_range (snd entry)))
  && in01 (InteroceptiveSignal.affective_weight (snd entry)).

(** ** Vocabulary of the floating-point lemmas *)
Module FloatDefs.

Local Open Scope Z_scope.

(** A zero, or a finite value of magnitude below [2 ^ k]. *)
Definition bnd (k : Z) (x : spec_float) : Prop :=
  match x with
  | S754_zero _ => True
  | S754_finite _ m e => Zdigits2 (Z.pos m) + e <= k
  | _ => False
  end.

(** [SFcompare] orders the values that are not NaN as the lexicographic
    order of a key of three integers. *)
Definition key (x : spec_float) : Z * Z * Z :=
  match x with
  | S754_zero _ => (0, 0, 0)
  | S754_infinity false => (2, 0, 0)
  | S754_infinity true => (-2, 0, 0)
  | S754_nan => (0, 0, 0)
  | S754_finite false m e => (1, e, Z.pos m)
  | S754_finite true m e => (-1, - e, Z.neg m)
  end.

Definition lex3 (a b : Z * Z * Z) : comparison :=
  let '(a1, a2, a3) := a in
  let '(b1, b2, b3) := b in
  match a1 ?= b1 with
  | Eq => match a2 ?= b2 with Eq => a3 ?= b3 | r => r end
  | r => r
  end.

End FloatDefs.

(** * Floating-point facts *)
Module FloatFacts.

Import FloatDefs.
Local Open Scope Z_scope.

(** Number of binary digits of a mantissa. *)
Lemma digits2_pos_size p : digits2_pos p = Pos.size p.
Proof. induction p; simpl; congruence. Qed.

Lemma Zdigits2_nonneg z : 0 <= Zdigits2 z.
Proof. destruct z; simpl; lia. Qed.

Lemma Zdigits2_gt z : 0 <= z -> z < 2 ^ Zdigits2 z.
Proof.
  destruct z as [|p|p]; simpl; try lia.
  intros _. rewrite digits2_pos_size.
  pose proof (Pos.size_gt p) as H.
  apply Pos2Z.pos_lt_pos in H. now rewrite Pos2Z.inj_pow in H.
Qed.

Lemma Zdigits2_le z n : 0 <= z -> 0 <= n -> z < 2 ^ n -> Zdigits2 z <= n.
Proof.
  destruct z as [|p|p]; simpl; try lia.
  intros _ Hn Hlt. rewrite digits2_pos_size.
  pose proof (Pos.size_le p) as H.
  apply Pos2Z.pos_le_pos in H. rewrite Pos2Z.inj_pow in H.
  destruct (Z_lt_le_dec n (Z.pos (Pos.size p))) as [Hc|Hc]; [|exact Hc].
  exfalso.
  assert (2 ^ (n + 1) <= 2 ^ Z.pos (Pos.size p))
    by (apply Z.pow_le_mono_r; lia).
  rewrite Z.pow_add_r, Z.pow_1_r in H0 by lia. lia.
Qed.

Lemma Zdigits2_pos_ge1 p : 1 <= Zdigits2 (Z.pos p).
Proof. simpl; lia. Qed.

Lemma Zdigits2_succ z : 0 <= z -> Zdigits2 (z + 1) <= Zdigits2 z + 1.
Proof.
  intros Hz. pose proof (Zdigits2_gt z Hz). pose proof (Zdigits2_nonneg z).
  apply Zdigits2_le; try lia.
  rewrite Z.pow_add_r, Z.pow_1_r by lia. lia.
Qed.

Lemma Zdigits2_mul_pow2 z n :
  0 <= z -> 0 <= n -> Zdigits2 (z * 2 ^ n) <= Zdigits2 z + n.
Proof.
  intros Hz Hn. pose proof (Zdigits2_gt z Hz). pose proof (Zdigits2_nonneg z).
  assert (0 < 2 ^ n) by (apply Z.pow_pos_nonneg; lia).
  apply Zdigits2_le; try nia.
  rewrite Z.pow_add_r by lia. nia.
Qed.

Lemma Zdigits2_mul a b :
  0 <= a -> 0 <= b -> Zdigits2 (a * b) <= Zdigits2 a + Zdigits2 b.
Proof.
  intros Ha Hb.
  pose proof (Zdigits2_gt a Ha). pose proof (Zdigits2_gt b Hb).
  pose proof (Zdigits2_nonneg a). pose proof (Zdigits2_nonneg b).
  apply Zdigits2_le; try nia.
  rewrite Z.pow_add_r by lia. nia.
Qed.

Lemma Zdigits2_shiftr z n :
  0 <= z -> 0 < n -> 0 < Z.shiftr z n -> Zdigits2 (Z.shiftr z n) + n <= Zdigits2 z.
Proof.
  intros Hz Hn Hpos.
  pose proof (Zdigits2_gt z Hz) as Hgt. pose proof (Zdigits2_nonneg z).
  rewrite Z.shiftr_div_pow2 in * by lia.
  assert (0 < 2 ^ n) by (apply Z.pow_pos_nonneg; lia).
  destruct (Z_lt_le_dec (Zdigits2 z) n) as [Hc|Hc].
  - exfalso.
    assert (2 ^ Zdigits2 z <= 2 ^ n) by (apply Z.pow_le_mono_r; lia).
    rewrite Z.div_small in Hpos by lia. lia.
  - enough (Zdigits2 (z / 2 ^ n) <= Zdigits2 z - n) by lia.
    apply Zdigits2_le; [lia | lia | ].
    apply Z.div_lt_upper_bound; [lia | ].
    rewrite <- Z.pow_add_r by lia.
    now replace (n + (Zdigits2 z - n)) with (Zdigits2 z) by lia.
Qed.

(** Right shifts of a rounding record. *)
Lemma shr_1_m r : 0 <= shr_m r -> shr_m (shr_1 r) = Z.div2 (shr_m r).
Proof.
  destruct r as [m b s]; simpl. destruct m as [|[p|p|]|p]; simpl; try reflexivity; lia.
Qed.

Lemma iter_shr_1_m p : forall r,
  0 <= shr_m r -> shr_m (iter_pos shr_1 p r) = Z.shiftr (shr_m r) (Z.pos p).
Proof.
  induction p as [p IH|p IH|]; intros r Hr; simpl iter_pos.
  - assert (H1 : 0 <= shr_m (shr_1 r))
      by (rewrite shr_1_m, Z.div2_spec by assumption; now apply Z.shiftr_nonneg).
    assert (H2 : 0 <= shr_m (iter_pos shr_1 p (shr_1 r)))
      by (rewrite IH by assumption; now apply Z.shiftr_nonneg).
    rewrite IH, IH, shr_1_m, Z.div2_spec by assumption.
    rewrite !Z.shiftr_shiftr by lia. f_equal. lia.
  - assert (H2 : 0 <= shr_m (iter_pos shr_1 p r))
      by (rewrite IH by assumption; now apply Z.shiftr_nonneg).
    rewrite IH, IH by assumption.
    rewrite Z.shiftr_shiftr by lia. f_equal. lia.
  - rewrite shr_1_m, Z.div2_spec by assumption. reflexivity.
Qed.

Lemma shr_record_of_loc_m m l : shr_m (shr_record_of_loc m l) = m.
Proof. destruct l as [|[]]; reflexivity. Qed.

(** What [shr_fexp] does to a non-negative mantissa. *)
Lemma shr_fexp_spec m e l :
  0 <= m ->
  let r := shr_fexp prec emax m e l in
  0 <= shr_m (fst r) /\ shr_m (fst r) <= m
  /\ snd r = Z.max e (fexp prec emax (Zdigits2 m + e))
  /\ (0 < shr_m (fst r) -> Zdigits2 (shr_m (fst r)) + snd r <= Zdigits2 m + e).
Proof.
  intros Hm. unfold shr_fexp, shr.
  destruct (fexp prec emax (Zdigits2 m + e) - e) as [|p|p] eqn:En; simpl fst; simpl snd;
    rewrite ?shr_record_of_loc_m.
  - repeat split; lia.
  - rewrite iter_shr_1_m by (rewrite shr_record_of_loc_m; exact Hm).
    rewrite shr_record_of_loc_m.
    assert (Hs : 0 <= Z.shiftr m (Z.pos p)) by now apply Z.shiftr_nonneg.
    repeat split; try lia.
    + rewrite Z.shiftr_div_pow2 by lia.
      assert (0 < 2 ^ Z.pos p) by (apply Z.pow_pos_nonneg; lia).
      apply Z.div_le_upper_bound; nia.
    + intros Hpos. pose proof (Zdigits2_shiftr m (Z.pos p) Hm ltac:(lia) Hpos). lia.
  - repeat split; lia.
Qed.

Lemma round_nearest_even_range m l :
  0 <= m -> m <= round_nearest_even m l <= m + 1.
Proof.
  intros Hm. destruct l as [|[]]; simpl; try lia. destruct (Z.even m); lia.
Qed.

(** The result of rounding a non-negative mantissa is never a NaN, and is
    finite whenever the magnitude stays well below the overflow
    threshold. *)
Lemma bnd_mono k k' x : k <= k' -> bnd k x -> bnd k' x.
Proof. destruct x; simpl; lia. Qed.

Lemma binary_round_aux_not_nan s m e l :
  0 <= m -> binary_round_aux prec emax s m e l <> S754_nan.
Proof.
  intros Hm. unfold binary_round_aux.
  pose proof (shr_fexp_spec m e l Hm) as H1.
  destruct (shr_fexp prec emax m e l) as [r1 e1]. simpl in H1.
  destruct H1 as (H1 & _).
  pose proof (round_nearest_even_range (shr_m r1) (loc_of_shr_record r1) H1) as H2.
  pose proof (shr_fexp_spec (round_nearest_even (shr_m r1) (loc_of_shr_record r1)) e1
                loc_Exact ltac:(lia)) as H3.
  destruct (shr_fexp prec emax _ e1 loc_Exact) as [r3 e3]. simpl in H3.
  destruct H3 as (H3 & _).
  destruct (shr_m r3); try lia; try discriminate.
  destruct (e3 <=? emax - prec); discriminate.
Qed.

Lemma binary_round_aux_bnd s m e l k :
  0 < m -> Zdigits2 m + e <= k -> -1074 <= k <= 971 ->
  bnd (k + 1) (binary_round_aux prec emax s m e l).
Proof.
  intros Hm Hk Hrange. unfold binary_round_aux.
  pose proof (shr_fexp_spec m e l ltac:(lia)) as H1.
  destruct (shr_fexp prec emax m e l) as [r1 e1]. simpl in H1.
  destruct H1 as (H1 & H1a & H1b & H1c).
  pose proof (round_nearest_even_range (shr_m r1) (loc_of_shr_record r1) H1) as H2.
  set (m2 := round_nearest_even (shr_m r1) (loc_of_shr_record r1)) in *.
  pose proof (shr_fexp_spec m2 e1 loc_Exact ltac:(lia)) as H3.
  destruct (shr_fexp prec emax m2 e1 loc_Exact) as [r3 e3]. simpl in H3.
  destruct H3 as (H3 & H3a & H3b & H3c).
  assert (Hd : 1 <= Zdigits2 m) by (destruct m; simpl; lia).
  assert (Hm2 : Zdigits2 m2 + e1 <= k + 1).
  { destruct (Z.eq_dec (shr_m r1) 0) as [Hz|Hz].
    - assert (Zdigits2 m2 <= 1).
      { apply Zdigits2_le; simpl; lia. }
      unfold fexp, SpecFloat.emin, prec, emax in *. lia.
    - assert (Zdigits2 m2 <= Zdigits2 (shr_m r1) + 1).
      { destruct (Z.eq_dec m2 (shr_m r1)) as [->|]; [lia|].
        replace m2 with (shr_m r1 + 1) by lia. apply Zdigits2_succ; lia. }
      specialize (H1c ltac:(lia)). lia. }
  destruct (shr_m r3) as [|p|p] eqn:E3; [exact I | | lia].
  specialize (H3c ltac:(lia)).
  assert (He : e3 <= emax - prec)
    by (unfold fexp, SpecFloat.emin, prec, emax in *; lia).
  apply Z.leb_le in He. rewrite He. unfold bnd. lia.
Qed.


(** Alignment of a mantissa to a smaller exponent. *)
Lemma iter_xO m d : Z.pos (Pos.iter xO m d) = Z.pos m * 2 ^ Z.pos d.
Proof.
  induction d as [|d IH] using Pos.peano_ind.
  - simpl. lia.
  - rewrite Pos.iter_succ, Pos2Z.inj_succ, Z.pow_succ_r by lia.
    rewrite Pos2Z.inj_xO, IH. lia.
Qed.

Lemma shl_align_spec mx ex ex' :
  let r := shl_align mx ex ex' in
  Zdigits2 (Z.pos (fst r)) + snd r <= Zdigits2 (Z.pos mx) + ex
  /\ (ex' <= ex -> snd r = ex').
Proof.
  unfold shl_align. destruct (ex' - ex) as [|d|d] eqn:E; cbn [fst snd].
  - split; lia.
  - split; lia.
  - split; [|lia]. rewrite iter_xO.
    pose proof (Zdigits2_mul_pow2 (Z.pos mx) (Z.pos d) ltac:(lia) ltac:(lia)). lia.
Qed.

Lemma binary_round_not_nan s m e : binary_round prec emax s m e <> S754_nan.
Proof.
  unfold binary_round. destruct (shl_align m e _) as [mz ez].
  apply binary_round_aux_not_nan. lia.
Qed.

Lemma binary_round_bnd s m e k :
  Zdigits2 (Z.pos m) + e <= k -> -1074 <= k <= 971 ->
  bnd (k + 1) (binary_round prec emax s m e).
Proof.
  intros Hk Hr. unfold binary_round.
  pose proof (shl_align_spec m e (fexp prec emax (Z.pos (digits2_pos m) + e))) as H.
  destruct (shl_align m e _) as [mz ez]. cbn [fst snd] in H.
  apply binary_round_aux_bnd; lia.
Qed.

Lemma binary_normalize_not_nan z e sz : binary_normalize prec emax z e sz <> S754_nan.
Proof. destruct z; simpl; [discriminate | apply binary_round_not_nan ..]. Qed.

Lemma binary_normalize_bnd z e sz k :
  Zdigits2 z + e <= k -> -1074 <= k <= 971 ->
  bnd (k + 1) (binary_normalize prec emax z e sz).
Proof.
  destruct z; intros Hk Hr; cbn [binary_normalize]; [exact I | now apply binary_round_bnd ..].
Qed.

Lemma Zdigits2_abs_le z n : 0 <= n -> Z.abs z < 2 ^ n -> Zdigits2 z <= n.
Proof.
  intros Hn Hz. destruct z as [|p|p].
  - simpl; lia.
  - apply Zdigits2_le; lia.
  - change (Zdigits2 (Z.neg p)) with (Zdigits2 (Z.pos p)). apply Zdigits2_le; lia.
Qed.

(** The aligned sum or difference of two mantissas has at most one digit
    more than the larger of the two. *)
Lemma aligned_sum_digits sx mx ex sy my ey k (sub : bool) :
  Zdigits2 (Z.pos mx) + ex <= k -> Zdigits2 (Z.pos my) + ey <= k ->
  let ez := Z.min ex ey in
  let a := cond_Zopp sx (Z.pos (fst (shl_align mx ex ez))) in
  let b := cond_Zopp sy (Z.pos (fst (shl_align my ey ez))) in
  Zdigits2 (if sub then a - b else a + b) + ez <= k + 1.
Proof.
  intros Hx Hy ez a b.
  pose proof (shl_align_spec mx ex ez) as [Ha Ha']. fold ez in Ha.
  pose proof (shl_align_spec my ey ez) as [Hb Hb'].
  rewrite Ha' in Ha by (subst ez; lia). rewrite Hb' in Hb by (subst ez; lia).
  set (pa := Z.pos (fst (shl_align mx ex ez))) in *.
  set (pb := Z.pos (fst (shl_align my ey ez))) in *.
  pose proof (Zdigits2_gt pa ltac:(subst pa; lia)) as Ga.
  pose proof (Zdigits2_gt pb ltac:(subst pb; lia)) as Gb.
  assert (Hda : 1 <= Zdigits2 pa) by (subst pa; simpl; lia).
  assert (Hdb : 1 <= Zdigits2 pb) by (subst pb; simpl; lia).
  assert (La : 2 ^ Zdigits2 pa <= 2 ^ (k - ez)) by (apply Z.pow_le_mono_r; lia).
  assert (Lb : 2 ^ Zdigits2 pb <= 2 ^ (k - ez)) by (apply Z.pow_le_mono_r; lia).
  enough (Zdigits2 (if sub then a - b else a + b) <= k - ez + 1) by lia.
  apply Zdigits2_abs_le; [lia|].
  rewrite Z.pow_add_r, Z.pow_1_r by lia.
  assert (Z.abs a = pa) by (subst a pa; destruct sx; simpl; lia).
  assert (Z.abs b = pb) by (subst b pb; destruct sy; simpl; lia).
  destruct sub; lia.
Qed.

(** Sums, differences and products of bounded values are bounded; a
    bounded value added to anything that is not a NaN is not a NaN. *)
Lemma SFadd_bnd k x y :
  bnd k x -> bnd k y -> -1075 <= k <= 970 -> bnd (k + 2) (SF64add x y).
Proof.
  destruct x as [sx| | |sx mx ex], y as [sy| | |sy my ey];
    unfold SF64add; cbn [bnd SFadd]; try tauto; intros Hx Hy Hr.
  - destruct sx, sy; exact I.
  - lia.
  - lia.
  - replace (k + 2) with ((k + 1) + 1) by lia.
    apply binary_normalize_bnd; [|lia].
    exact (aligned_sum_digits sx mx ex sy my ey k false Hx Hy).
Qed.

Lemma SFsub_bnd k x y :
  bnd k x -> bnd k y -> -1075 <= k <= 970 -> bnd (k + 2) (SF64sub x y).
Proof.
  destruct x as [sx| | |sx mx ex], y as [sy| | |sy my ey];
    unfold SF64sub; cbn [bnd SFsub]; try tauto; intros Hx Hy Hr.
  - destruct sx, sy; exact I.
  - lia.
  - lia.
  - replace (k + 2) with ((k + 1) + 1) by lia.
    apply binary_normalize_bnd; [|lia].
    exact (aligned_sum_digits sx mx ex sy my ey k true Hx Hy).
Qed.

Lemma SFmul_bnd a b x y :
  bnd a x -> bnd b y -> -1074 <= a + b <= 971 -> bnd (a + b + 1) (SF64mul x y).
Proof.
  destruct x as [sx| | |sx mx ex], y as [sy| | |sy my ey];
    unfold SF64mul; cbn [bnd SFmul]; try tauto; intros Hx Hy Hr.
  apply binary_round_aux_bnd; [lia| |lia].
  pose proof (Zdigits2_mul (Z.pos mx) (Z.pos my) ltac:(lia) ltac:(lia)) as H.
  rewrite Pos2Z.inj_mul. lia.
Qed.

Lemma SFadd_not_nan k x y : bnd k x -> y <> S754_nan -> SF64add x y <> S754_nan.
Proof.
  destruct x as [sx| | |sx mx ex], y as [sy| | |sy my ey];
    unfold SF64add; cbn [bnd SFadd]; try tauto; intros Hx Hy; try discriminate.
  - destruct sx, sy; discriminate.
  - apply binary_normalize_not_nan.
Qed.

Lemma bnd_not_nan k x : bnd k x -> x <> S754_nan.
Proof. destruct x; simpl; try tauto; discriminate. Qed.


(** ** The order of floating-point numbers *)
Lemma SFcompare_key x y :
  x <> S754_nan -> y <> S754_nan -> SFcompare x y = Some (lex3 (key x) (key y)).
Proof.
  destruct x as [sx|sx| |sx mx ex], y as [sy|sy| |sy my ey]; intros Hx Hy;
    try congruence; try (destruct sx); try (destruct sy); try reflexivity.
  cbn [SFcompare key lex3]. change (-1 ?= -1) with Eq. cbv iota.
  rewrite Z.compare_opp. rewrite (Z.compare_antisym ex ey).
  destruct (ex ?= ey); cbn [CompOpp]; reflexivity.
Qed.

Ltac lex3_solve :=
  unfold lex3;
  repeat match goal with
         | p : (Z * Z * Z)%type |- _ => destruct p as [[? ?] ?]
         end;
  repeat match goal with
         | |- context [?a ?= ?b] => destruct (Z.compare_spec a b)
         | H : context [?a ?= ?b] |- _ => destruct (Z.compare_spec a b)
         end;
  try congruence; try lia.

Lemma lex3_refl a : lex3 a a = Eq.
Proof. lex3_solve. Qed.

Lemma lex3_le_lt_trans a b c :
  lex3 a b <> Gt -> lex3 b c = Lt -> lex3 a c = Lt.
Proof. lex3_solve. Qed.

Lemma lex3_not_lt_ge a b : lex3 a b <> Lt -> lex3 b a <> Gt.
Proof. lex3_solve. Qed.

Lemma lex3_lt_le a b : lex3 a b = Lt -> lex3 a b <> Gt.
Proof. congruence. Qed.

Lemma SFcompare_nan_l x y : SFcompare x y <> None -> x <> S754_nan.
Proof. destruct x; simpl; congruence. Qed.

Lemma SFcompare_nan_r x y : SFcompare x y <> None -> y <> S754_nan.
Proof. destruct x, y; simpl; congruence. Qed.

Lemma SFltb_spec x y :
  SFltb x y = true <->
  x <> S754_nan /\ y <> S754_nan /\ lex3 (key x) (key y) = Lt.
Proof.
  unfold SFltb. split.
  - intros H.
    assert (Hn : SFcompare x y <> None) by (destruct (SFcompare x y); congruence).
    pose proof (SFcompare_nan_l _ _ Hn) as Hx. pose proof (SFcompare_nan_r _ _ Hn) as Hy.
    rewrite SFcompare_key in H by assumption.
    repeat split; try assumption. destruct (lex3 _ _); congruence.
  - intros (Hx & Hy & H). rewrite SFcompare_key, H by assumption. reflexivity.
Qed.

Lemma SFleb_spec x y :
  SFleb x y = true <->
  x <> S754_nan /\ y <> S754_nan /\ lex3 (key x) (key y) <> Gt.
Proof.
  unfold SFleb. split.
  - intros H.
    assert (Hn : SFcompare x y <> None) by (destruct (SFcompare x y); congruence).
    pose proof (SFcompare_nan_l _ _ Hn) as Hx. pose proof (SFcompare_nan_r _ _ Hn) as Hy.
    rewrite SFcompare_key in H by assumption.
    repeat split; try assumption. destruct (lex3 _ _); congruence.
  - intros (Hx & Hy & H). rewrite SFcompare_key by assumption.
    destruct (lex3 _ _); congruence.
Qed.


(** ** Primitive floats *)

Lemma is_nan_false x : is_nan x = false <-> Prim2SF x <> S754_nan.
Proof.
  unfold is_nan. rewrite eqb_spec. unfold SFeqb. split.
  - intros H. destruct (Prim2SF x); discriminate.
  - intros H. rewrite SFcompare_key, lex3_refl by assumption. reflexivity.
Qed.

Lemma ltb_leb x y : (x <? y)%float = true -> (x <=? y)%float = true.
Proof.
  rewrite ltb_spec, leb_spec, SFltb_spec, SFleb_spec.
  intros (Hx & Hy & H). repeat split; try assumption. congruence.
Qed.

Lemma ltb_false_leb x y :
  is_nan x = false -> is_nan y = false ->
  (x <? y)%float = false -> (y <=? x)%float = true.
Proof.
  rewrite !is_nan_false. intros Hx Hy H.
  rewrite leb_spec, SFleb_spec. repeat split; try assumption.
  apply lex3_not_lt_ge. intros Hlt.
  rewrite ltb_spec in H.
  assert (SFltb (Prim2SF x) (Prim2SF y) = true) by (apply SFltb_spec; auto).
  congruence.
Qed.

Lemma leb_ltb_trans x y z :
  (x <=? y)%float = true -> (y <? z)%float = true -> (x <? z)%float = true.
Proof.
  rewrite leb_spec, !ltb_spec, SFleb_spec, !SFltb_spec.
  intros (Hx & Hy & H1) (_ & Hz & H2). repeat split; try assumption.
  eapply lex3_le_lt_trans; eassumption.
Qed.

Lemma leb_refl x : is_nan x = false -> (x <=? x)%float = true.
Proof.
  rewrite is_nan_false, leb_spec, SFleb_spec. intros H.
  repeat split; try assumption. rewrite lex3_refl. discriminate.
Qed.

Lemma leb_not_nan_l x y : (x <=? y)%float = true -> is_nan x = false.
Proof. rewrite leb_spec, SFleb_spec, is_nan_false. tauto. Qed.

Lemma leb_not_nan_r x y : (x <=? y)%float = true -> is_nan y = false.
Proof. rewrite leb_spec, SFleb_spec, is_nan_false. tauto. Qed.

Lemma ltb_not_nan_r x y : (x <? y)%float = true -> is_nan y = false.
Proof. rewrite ltb_spec, SFltb_spec, is_nan_false. tauto. Qed.

(** A float between 0 and 1 is a zero or has magnitude below 2. *)
Lemma in01_bnd x : in01 x = true -> bnd 1 (Prim2SF x).
Proof.
  unfold in01. rewrite andb_true_iff, !leb_spec.
  pose proof (Prim2SF_valid x) as Hv.
  change (Prim2SF 0) with (S754_zero false).
  change (Prim2SF 1) with (S754_finite false 4503599627370496 (-52)).
  destruct (Prim2SF x) as [s|s| |s m e]; cbn [bnd]; intros [H0 H1].
  - exact I.
  - destruct s; discriminate.
  - discriminate.
  - destruct s; [discriminate|].
    unfold valid_binary, bounded, canonical_mantissa in Hv.
    apply andb_true_iff in Hv. destruct Hv as [Hc _]. apply Z.eqb_eq in Hc.
    unfold SFleb, SFcompare in H1.
    change (Zdigits2 (Z.pos m)) with (Z.pos (digits2_pos m)).
    unfold fexp, SpecFloat.emin, prec, emax in Hc.
    destruct (Z.compare_spec e (-52)); try discriminate; lia.
Qed.

Lemma bnd_is_nan k x : bnd k (Prim2SF x) -> is_nan x = false.
Proof. intros H. apply is_nan_false. eapply bnd_not_nan; eassumption. Qed.

Lemma in01_not_nan x : in01 x = true -> is_nan x = false.
Proof. intros H. eapply bnd_is_nan, in01_bnd, H. Qed.

Lemma abs_nonneg x : is_nan x = false -> (0 <=? abs x)%float = true.
Proof.
  rewrite is_nan_false, leb_spec, abs_spec. change (Prim2SF 0) with (S754_zero false).
  destruct (Prim2SF x) as [s|s| |s m e]; try reflexivity. congruence.
Qed.

(** Sums and differences that cannot be NaN. *)
Lemma add_not_nan x y :
  in01 x = true -> is_nan y = false -> is_nan (x + y) = false.
Proof.
  intros Hx Hy. apply is_nan_false. rewrite add_spec.
  eapply SFadd_not_nan; [apply in01_bnd, Hx | now apply is_nan_false].
Qed.

Lemma sub_in01_bnd x y :
  in01 x = true -> in01 y = true -> bnd 3 (Prim2SF (x - y)).
Proof.
  intros Hx Hy. rewrite sub_spec.
  apply (SFsub_bnd 1); [now apply in01_bnd .. | lia].
Qed.

(** The level a drive would take before clamping, when the stimulus effect
    is left out, is finite. *)
Lemma homeostatic_level_bnd level optimal :
  in01 level = true -> in01 optimal = true ->
  bnd 3 (Prim2SF (level + (optimal - level) * 0.1)).
Proof.
  intros Hl Ho. rewrite add_spec.
  apply (SFadd_bnd 1); [now apply in01_bnd | | lia].
  rewrite mul_spec.
  change 1 with (3 + -3 + 1).
  apply SFmul_bnd; [now apply sub_in01_bnd | | lia].
  change (Prim2SF 0.1) with (S754_finite false 7205759403792794 (-56)).
  simpl. lia.
Qed.

(** ** [clip] is the clamp to the unit interval *)

Lemma lex3_lt_asym a b : lex3 a b = Lt -> lex3 b a <> Lt.
Proof. lex3_solve. Qed.

Lemma lex3_le_ge_eq a b : lex3 a b <> Gt -> lex3 a b <> Lt -> lex3 b a = Eq.
Proof. lex3_solve. Qed.

Lemma lex3_lt_le_trans a b c :
  lex3 a b = Lt -> lex3 b c <> Gt -> lex3 a c = Lt.
Proof. lex3_solve. Qed.

Lemma ltb_asym x y : (x <? y)%float = true -> (y <? x)%float = false.
Proof.
  rewrite ltb_spec, SFltb_spec. intros (Hx & Hy & H).
  destruct (y <? x)%float eqn:E; [|reflexivity].
  rewrite ltb_spec, SFltb_spec in E. destruct E as (_ & _ & E).
  now apply lex3_lt_asym in H.
Qed.

Lemma ltb_leb_trans x y z :
  (x <? y)%float = true -> (y <=? z)%float = true -> (x <? z)%float = true.
Proof.
  rewrite leb_spec, !ltb_spec, SFleb_spec, !SFltb_spec.
  intros (Hx & Hy & H1) (_ & Hz & H2). repeat split; try assumption.
  eapply lex3_lt_le_trans; eassumption.
Qed.

Lemma leb_not_ltb_eqb x y :
  (x <=? y)%float = true -> (x <? y)%float = false -> (y =? x)%float = true.
Proof.
  rewrite leb_spec, SFleb_spec. intros (Hx & Hy & H) Hlt.
  rewrite eqb_spec. unfold SFeqb. rewrite SFcompare_key by assumption.
  rewrite lex3_le_ge_eq; [reflexivity | assumption | ].
  intros E. rewrite ltb_spec in Hlt.
  assert (SFltb (Prim2SF x) (Prim2SF y) = true) by (apply SFltb_spec; auto).
  congruence.
Qed.

Lemma ltb_not_nan_l x y : (x <? y)%float = true -> is_nan x = false.
Proof. rewrite ltb_spec, SFltb_spec, is_nan_false. tauto. Qed.

Lemma clip_in01 x : is_nan x = false -> in01 (clip x 0 1) = true.
Proof.
  intros Hx. unfold clip. rewrite Hx.
  destruct (0 <? x)%float eqn:E0.
  - destruct (x <? 1)%float eqn:E1.
    + unfold in01. now rewrite (ltb_leb _ _ E0), (ltb_leb _ _ E1).
    + reflexivity.
  - reflexivity.
Qed.

Lemma clip_below x : (x <? 0)%float = true -> clip x 0 1 = 0%float.
Proof.
  intros H. unfold clip.
  rewrite (ltb_not_nan_l _ _ H), (ltb_asym _ _ H). reflexivity.
Qed.

Lemma clip_above x : (1 <? x)%float = true -> clip x 0 1 = 1%float.
Proof.
  intros H. unfold clip.
  rewrite (ltb_not_nan_r _ _ H), (leb_ltb_trans 0 1 x eq_refl H). cbv zeta.
  now rewrite (ltb_asym _ _ H).
Qed.

Lemma clip_inside x : in01 x = true -> (clip x 0 1 =? x)%float = true.
Proof.
  intros H. pose proof (in01_not_nan _ H) as Hn.
  unfold in01 in H. apply andb_true_iff in H. destruct H as [H0 H1].
  unfold clip. rewrite Hn.
  destruct (0 <? x)%float eqn:E0.
  - destruct (x <? 1)%float eqn:E1.
    + unfold is_nan in Hn. now apply negb_false_iff in Hn.
    + now apply leb_not_ltb_eqb.
  - change (0 <? 1)%float with true. cbv iota.
    pose proof (leb_not_ltb_eqb _ _ H0 E0) as E.
    rewrite eqb_spec in *. unfold SFeqb in *.
    destruct (Prim2SF x) as [s|s| |s m e]; try destruct s; try discriminate; reflexivity.
Qed.

Lemma clip_nan x : is_nan x = true -> clip x 0 1 = x.
Proof. intros H. unfold clip. now rewrite H. Qed.

End FloatFacts.

(** * Bounded lists *)
Section AppendBounded.

Context {A : Type}.
Implicit Types (lst : list A) (x : A) (bound : nat).

Lemma append_bounded_below bound lst x :
  (List.length lst < bound)%nat -> append_bounded bound lst x = lst ++ [x].
Proof.
  intros H. unfold append_bounded.
  rewrite length_app, Nat.add_1_r.
  destruct (Nat.ltb_spec bound (S (List.length lst))); [lia | reflexivity].
Qed.

Lemma append_bounded_full bound lst x :
  (bound <= List.length lst)%nat -> lst <> [] ->
  append_bounded bound lst x = tl lst ++ [x].
Proof.
  intros H Hne. unfold append_bounded.
  rewrite length_app, Nat.add_1_r.
  destruct (Nat.ltb_spec bound (S (List.length lst))); [|lia].
  destruct lst; [congruence | reflexivity].
Qed.

(** The first-in first-out reading of [append_bounded] on a list within
    its bound. *)
Lemma append_bounded_fifo bound lst x :
  (0 < bound)%nat -> (List.length lst <= bound)%nat ->
  append_bounded bound lst x =
  if (List.length lst <? bound)%nat then lst ++ [x] else tl lst ++ [x].
Proof.
  intros Hb Hl. destruct (Nat.ltb_spec (List.length lst) bound).
  - now apply append_bounded_below.
  - apply append_bounded_full; [lia|]. destruct lst; simpl in *; [lia | discriminate].
Qed.

Lemma append_bounded_length bound lst x :
  (List.length lst <= bound)%nat ->
  (List.length (append_bounded bound lst x) <= bound)%nat.
Proof.
  intros H. unfold append_bounded.
  destruct (Nat.ltb_spec bound (List.length (lst ++ [x]))) as [Hlt|Hge]; [|exact Hge].
  rewrite length_app, Nat.add_1_r in Hlt.
  destruct lst; simpl in *; [lia|].
  rewrite length_app. simpl. lia.
Qed.

Lemma append_bounded_last bound lst x d :
  (0 < bound)%nat -> last (append_bounded bound lst x) d = x.
Proof.
  intros Hb. unfold append_bounded.
  destruct (Nat.ltb_spec bound (List.length (lst ++ [x]))) as [Hlt|Hge].
  - destruct lst as [|a lst]; [simpl in Hlt; lia|].
    simpl tl. apply last_last.
  - apply last_last.
Qed.

End AppendBounded.

(** * What each operation touches *)
Section Frames.

Implicit Types (self : AffectiveCore.t) (st : DriveState.t).

Lemma update_numeric st (s dt : float) :
  DriveState.update st (PyFloat s) dt =
  (let level :=
     clip (DriveState.current_level st
           + (DriveState.optimal_level st - DriveState.current_level st) * 0.1
           + s * dt)%float 0 1 in
   DriveState.mk (DriveState.drive_type st) level (DriveState.optimal_level st)
     (abs (level - DriveState.optimal_level st))
     (append_bounded 100 (DriveState.satisfaction_history st) level),
   Ok tt).
Proof. reflexivity. Qed.

Lemma update_raises st v dt e :
  snd (DriveState.update st v dt) = Raise e ->
  is_numeric v = false /\ fst (DriveState.update st v dt) = st.
Proof. destruct v; simpl; intros H; try discriminate; auto. Qed.

Lemma update_returns st v dt u :
  snd (DriveState.update st v dt) = Ok u -> is_numeric v = true.
Proof. destruct v; simpl; intros H; try discriminate; auto. Qed.

Lemma update_optimal st v dt :
  DriveState.optimal_level (fst (DriveState.update st v dt)) = DriveState.optimal_level st.
Proof. destruct v; reflexivity. Qed.

Lemma update_history_length st v dt :
  (List.length (DriveState.satisfaction_history st) <= 100)%nat ->
  (List.length (DriveState.satisfaction_history (fst (DriveState.update st v dt))) <= 100)%nat.
Proof.
  destruct v; simpl; auto. apply append_bounded_length.
Qed.

(** The loop of [update_drives]: every drive in the result is the drive it
    was or that drive updated. *)
Lemma update_drives_loop_keys ds s dt : forall total,
  map fst (fst (update_drives_loop ds s dt total)) = map fst ds.
Proof.
  induction ds as [|[k st] rest IH]; intros total; simpl; [reflexivity|].
  destruct (DriveState.update st _ dt) as [st' [u|e]]; simpl; [|reflexivity].
  specialize (IH (total + DriveState.urgency st' * DriveState.tension st')%float).
  destruct (update_drives_loop rest s dt _) as [rest' r]. simpl in *. now rewrite IH.
Qed.

Lemma update_drives_loop_preserves (P : DriveType -> DriveState.t -> Prop) ds s dt :
  (forall k st, P k st -> P k (fst (DriveState.update st (stimulus_of s k) dt))) ->
  Forall (fun entry => P (fst entry) (snd entry)) ds ->
  forall total,
    Forall (fun entry => P (fst entry) (snd entry))
           (fst (update_drives_loop ds s dt total)).
Proof.
  intros Hstep. induction 1 as [|[k st] rest Hk Hrest IH]; intros total; simpl; [constructor|].
  pose proof (Hstep k st Hk) as Hk'. unfold stimulus_of in Hk'.
  destruct (DriveState.update st _ dt) as [st' [u|e]]; simpl in *.
  - specialize (IH (total + DriveState.urgency st' * DriveState.tension st')%float).
    destruct (update_drives_loop rest s dt _) as [rest' r]. simpl in *.
    constructor; assumption.
  - constructor; assumption.
Qed.

Lemma update_drives_drives self s dt :
  drives (fst (update_drives self s dt)) =
  fst (update_drives_loop (drives self) s dt 0).
Proof.
  unfold update_drives.
  destruct (update_drives_loop (drives self) s dt 0) as [ds [total|e]]; reflexivity.
Qed.

Lemma update_drives_result self s dt :
  snd (update_drives self s dt) =
  match snd (update_drives_loop (drives self) s dt 0) with
  | Ok total =>
      Ok (total + _compute_interoceptive_tension self)%float
  | Raise e => Raise e
  end.
Proof.
  unfold update_drives.
  destruct (update_drives_loop (drives self) s dt 0) as [ds [total|e]]; reflexivity.
Qed.

Lemma update_drives_frame self s dt :
  let self' := fst (update_drives self s dt) in
  interoceptive_signals self' = interoceptive_signals self
  /\ decision_history self' = decision_history self
  /\ developmental_stage self' = developmental_stage self.
Proof.
  unfold update_drives.
  destruct (update_drives_loop (drives self) s dt 0) as [ds [total|e]]; simpl; auto.
Qed.

Lemma update_drives_raise_frame self s dt e :
  snd (update_drives self s dt) = Raise e ->
  let self' := fst (update_drives self s dt) in
  affective_history self' = affective_history self
  /\ current_tension self' = current_tension self.
Proof.
  unfold update_drives.
  destruct (update_drives_loop (drives self) s dt 0) as [ds [total|e']]; simpl;
    [discriminate | auto].
Qed.

Lemma update_drives_ok_history self s dt total :
  snd (update_drives self s dt) = Ok total ->
  let self' := fst (update_drives self s dt) in
  current_tension self' = total
  /\ exists entry,
       ar_timestamp entry = List.length (affective_history self)
       /\ ar_tension entry = total
       /\ affective_history self' =
          append_bounded 1000 (affective_history self) entry.
Proof.
  unfold update_drives.
  destruct (update_drives_loop (drives self) s dt 0) as [ds [t|e']]; simpl;
    [|discriminate].
  intros [= <-]. split; [reflexivity|].
  eexists. repeat split; reflexivity.
Qed.

Lemma update_interoception_frame self ch :
  let self' := fst (update_interoception self ch) in
  drives self' = drives self
  /\ affective_history self' = affective_history self
  /\ decision_history self' = decision_history self
  /\ current_tension self' = current_tension self
  /\ developmental_stage self' = developmental_stage self.
Proof.
  unfold update_interoception.
  destruct (update_interoception_loop _ ch) as [sigs r]; simpl; auto 6.
Qed.

Lemma update_interoception_signals self ch :
  interoceptive_signals (fst (update_interoception self ch)) =
  fst (update_interoception_loop (interoceptive_signals self) ch).
Proof.
  unfold update_interoception.
  destruct (update_interoception_loop _ ch) as [sigs r]; reflexivity.
Qed.

Lemma advance_frame self :
  let self' := advance_developmental_stage self in
  interoceptive_signals self' = interoceptive_signals self
  /\ affective_history self' = affective_history self
  /\ decision_history self' = decision_history self
  /\ current_tension self' = current_tension self.
Proof.
  unfold advance_developmental_stage.
  destruct (developmental_stage self <? 3)%Z; simpl; auto.
  destruct (developmental_stage self + 1 =? 2)%Z; simpl; auto.
  destruct (developmental_stage self + 1 =? 3)%Z; simpl; auto.
Qed.

(** [advance_developmental_stage] maps every drive to a drive that differs
    at most in its optimal level. *)
Lemma advance_drives self :
  exists f : DriveType -> float -> float,
    drives (advance_developmental_stage self) =
    map (fun '(k, st) =>
           (k, DriveState.mk (DriveState.drive_type st) (DriveState.current_level st)
                             (f k (DriveState.optimal_level st)) (DriveState.urgency st)
                             (DriveState.satisfaction_history st)))
        (drives self)
    /\ forall k o, f k o = o \/ f k o = 0.7%float \/ f k o = 0.6%float \/ f k o = 0.5%float.
Proof.
  assert (Hid : forall ds : dict DriveType DriveState.t,
             ds = map (fun '(k, st) =>
               (k, DriveState.mk (DriveState.drive_type st) (DriveState.current_level st)
                                 (DriveState.optimal_level st) (DriveState.urgency st)
                                 (DriveState.satisfaction_history st))) ds).
  { induction ds as [|[k [? ? ? ? ?]] ds IH]; simpl; [reflexivity | now rewrite <- IH]. }
  unfold advance_developmental_stage.
  destruct (developmental_stage self <? 3)%Z; simpl.
  2: { exists (fun _ o => o). split; [apply Hid | auto]. }
  destruct (developmental_stage self + 1 =? 2)%Z; simpl.
  { exists (fun k o => if DriveType_eqb k PLAY then 0.6%float
                       else if DriveType_eqb k SEEK then 0.7%float else o).
    split.
    - unfold set_optimal. rewrite map_map. apply map_ext. intros [k st].
      destruct (DriveType_eqb k SEEK) eqn:E1; destruct (DriveType_eqb k PLAY) eqn:E2;
        try reflexivity; destruct st; reflexivity.
    - intros k o. destruct (DriveType_eqb k PLAY), (DriveType_eqb k SEEK); auto. }
  destruct (developmental_stage self + 1 =? 3)%Z; simpl.
  { exists (fun _ _ => 0.5%float). split; [reflexivity | auto]. }
  exists (fun _ o => o). split; [apply Hid | auto].
Qed.

End Frames.

(** * Invariants of every reachable core *)
Section Reachable.

Implicit Types (self : AffectiveCore.t) (o : op) (ops : list op).

Lemma run_snoc ops o : run (ops ++ [o]) = step (run ops) o.
Proof. unfold run. now rewrite fold_left_app. Qed.

(** Induction over the calls made so far. *)
Lemma run_invariant (P : AffectiveCore.t -> Prop) (Q : op -> bool) :
  P init ->
  (forall self o, Q o = true -> P self -> P (step self o)) ->
  forall ops, forallb Q ops = true -> P (run ops).
Proof.
  intros Hinit Hstep ops. induction ops as [|o ops IH] using rev_ind; intros HQ.
  - exact Hinit.
  - rewrite forallb_app in HQ. apply andb_true_iff in HQ. destruct HQ as [HQ Ho].
    simpl in Ho. rewrite andb_true_r in Ho.
    rewrite run_snoc. apply Hstep; auto.
Qed.

Lemma forallb_always ops : forallb (fun _ : op => true) ops = true.
Proof. induction ops; simpl; auto. Qed.

Lemma update_signal_keys sigs nm c : map fst (update_signal sigs nm c) = map fst sigs.
Proof.
  induction sigs as [|[nm' s] rest IH]; simpl; [reflexivity|].
  destruct (String.eqb nm' nm); simpl; [reflexivity | now rewrite IH].
Qed.

Lemma update_interoception_loop_keys ch : forall sigs,
  map fst (fst (update_interoception_loop sigs ch)) = map fst sigs.
Proof.
  induction ch as [|[k v] rest IH]; intros sigs; simpl; [reflexivity|].
  destruct (has_signal sigs k); [|apply IH].
  destruct k as [d|nm]; [reflexivity|].
  destruct v; try reflexivity. rewrite IH. apply update_signal_keys.
Qed.

Lemma step_wf self o : wf self -> wf (step self o).
Proof.
  intros [Hd Hs]. destruct o; simpl; try (split; assumption).
  - destruct (update_drives_frame self external_stimuli delta_time) as (Es & _).
    split; [|now rewrite Es].
    now rewrite update_drives_drives, update_drives_loop_keys.
  - destruct (update_interoception_frame self internal_changes) as (Ed & _).
    split; [now rewrite Ed|].
    now rewrite update_interoception_signals, update_interoception_loop_keys.
  - destruct (advance_frame self) as (Es & _). split; [|now rewrite Es].
    destruct (advance_drives self) as (f & -> & _).
    rewrite map_map, <- Hd. apply map_ext. now intros [k st].
Qed.

Lemma run_wf ops : wf (run ops).
Proof.
  apply (run_invariant wf (fun _ => true)); [split; reflexivity | | apply forallb_always].
  intros self o _. apply step_wf.
Qed.

Lemma step_hist_inv self o : hist_inv self -> hist_inv (step self o).
Proof.
  intros (Hd & Ha & Hc). unfold hist_inv.
  destruct o; simpl; try (repeat split; assumption).
  - destruct (update_drives_frame self external_stimuli delta_time) as (_ & Ec & _).
    repeat split.
    + rewrite update_drives_drives.
      apply (update_drives_loop_preserves
               (fun _ st => (List.length (DriveState.satisfaction_history st) <= 100)%nat));
        [|assumption].
      intros k st. apply update_history_length.
    + destruct (snd (update_drives self external_stimuli delta_time)) as [total|e] eqn:E.
      * destruct (update_drives_ok_history _ _ _ _ E) as (_ & entry & _ & _ & ->).
        now apply append_bounded_length.
      * destruct (update_drives_raise_frame _ _ _ _ E) as (-> & _). assumption.
    + now rewrite Ec.
  - destruct (update_interoception_frame self internal_changes) as (-> & -> & -> & _).
    repeat split; assumption.
  - repeat split; try assumption. simpl. now apply append_bounded_length.
  - destruct (advance_frame self) as (_ & -> & -> & _).
    repeat split; try assumption.
    destruct (advance_drives self) as (f & -> & _).
    rewrite Forall_map. eapply Forall_impl; [|exact Hd]. now intros [k st].
Qed.

Lemma run_hist_inv ops : hist_inv (run ops).
Proof.
  apply (run_invariant hist_inv (fun _ => true)); [ | | apply forallb_always].
  - repeat split; simpl; try lia. repeat constructor; simpl; lia.
  - intros self o _. apply step_hist_inv.
Qed.

End Reachable.

(** * Levels and values stay in the unit interval *)
Section UnitInterval.

Import FloatFacts.
Implicit Types (self : AffectiveCore.t) (st : DriveState.t).

(** The sum that [update] clamps is a number whenever the stimulus effect
    is one. *)
Lemma level_sum_not_nan level optimal effect :
  in01 level = true -> in01 optimal = true -> is_nan effect = false ->
  is_nan (level + (optimal - level) * 0.1 + effect) = false.
Proof.
  intros Hl Ho He. apply is_nan_false. rewrite add_spec.
  eapply SFadd_not_nan.
  - apply homeostatic_level_bnd; assumption.
  - now apply is_nan_false.
Qed.

Lemma abs_sub_nonneg x y :
  in01 x = true -> in01 y = true -> (0 <=? abs (x - y))%float = true.
Proof.
  intros Hx Hy. apply abs_nonneg. eapply bnd_is_nan, sub_in01_bnd; eassumption.
Qed.

Lemma update_drive_num st s dt :
  drive_num st -> is_nan (s * dt) = false ->
  drive_num (fst (DriveState.update st (PyFloat s) dt)).
Proof.
  intros (Hl & Ho & Hu) He. rewrite update_numeric. cbn [fst]. cbv zeta.
  assert (Hl' : in01 (clip (DriveState.current_level st
                            + (DriveState.optimal_level st - DriveState.current_level st) * 0.1
                            + s * dt) 0 1) = true)
    by (apply clip_in01, level_sum_not_nan; assumption).
  unfold drive_num. cbn [DriveState.current_level DriveState.optimal_level DriveState.urgency].
  repeat split; try assumption. now apply abs_sub_nonneg.
Qed.

Lemma effect_ok_all s dt :
  forallb (effect_ok s dt) all_drive_types = true -> forall k, effect_ok s dt k = true.
Proof.
  intros H k. rewrite forallb_forall in H. apply H. destruct k; simpl; tauto.
Qed.

Lemma update_signal_in01 sigs nm c :
  is_nan c = false ->
  Forall (fun entry => in01 (InteroceptiveSignal.current_value (snd entry)) = true) sigs ->
  Forall (fun entry => in01 (InteroceptiveSignal.current_value (snd entry)) = true)
         (update_signal sigs nm c).
Proof.
  intros Hc. induction 1 as [|[nm' sg] rest Hsg Hrest IH]; simpl; [constructor|].
  destruct (String.eqb nm' nm); constructor; auto.
  simpl in *. apply clip_in01. now apply add_not_nan.
Qed.

Lemma has_signal_name sigs nm :
  has_signal sigs (KStr nm) = existsb (String.eqb nm) (map fst sigs).
Proof.
  simpl. induction sigs as [|[nm' sg] rest IH]; simpl; [reflexivity|].
  now rewrite IH, String.eqb_sym.
Qed.

Lemma update_interoception_loop_in01 ch : forall sigs,
  map fst sigs = signal_names ->
  forallb change_ok ch = true ->
  Forall (fun entry => in01 (InteroceptiveSignal.current_value (snd entry)) = true) sigs ->
  Forall (fun entry => in01 (InteroceptiveSignal.current_value (snd entry)) = true)
         (fst (update_interoception_loop sigs ch)).
Proof.
  induction ch as [|[k v] rest IH]; intros sigs Hk Hok Hs; simpl; [assumption|].
  cbn [forallb] in Hok. apply andb_true_iff in Hok. destruct Hok as [Hkv Hok].
  destruct (has_signal sigs k) eqn:Ehas; [|now apply IH].
  destruct k as [d|nm]; [assumption|].
  destruct v as [c| |]; try assumption.
  rewrite has_signal_name, Hk in Ehas. cbn [change_ok] in Hkv. rewrite Ehas in Hkv. simpl in Hkv.
  apply negb_true_iff in Hkv.
  apply IH; [now rewrite update_signal_keys | assumption | now apply update_signal_in01].
Qed.

Lemma step_num_inv self o :
  nan_free o = true -> wf self /\ num_inv self -> wf (step self o) /\ num_inv (step self o).
Proof.
  intros Ho [Hwf (Hd & Hs)]. split; [now apply step_wf|]. unfold num_inv.
  destruct o; simpl; try (split; assumption).
  - destruct (update_drives_frame self external_stimuli delta_time) as (-> & _).
    split; [|assumption].
    rewrite update_drives_drives.
    apply (update_drives_loop_preserves (fun _ st => drive_num st)); [|assumption].
    intros k st Hst. pose proof (effect_ok_all _ _ Ho k) as Hk. unfold effect_ok in Hk.
    destruct (stimulus_of external_stimuli k) as [s| |]; try exact Hst.
    apply update_drive_num; [assumption | now apply negb_true_iff].
  - destruct (update_interoception_frame self internal_changes) as (-> & _).
    split; [assumption|].
    rewrite update_interoception_signals.
    apply update_interoception_loop_in01; [apply Hwf | exact Ho | assumption].
  - destruct (advance_frame self) as (-> & _). split; [|assumption].
    destruct (advance_drives self) as (f & -> & Hf).
    rewrite Forall_map. eapply Forall_impl; [|exact Hd].
    intros [k st] (Hl & Hopt & Hu). unfold drive_num; simpl. repeat split; try assumption.
    destruct (Hf k (DriveState.optimal_level st)) as [-> | [-> | [-> | ->]]];
      [assumption | reflexivity ..].
Qed.

Lemma run_num_inv ops : forallb nan_free ops = true -> num_inv (run ops).
Proof.
  intros H.
  apply (run_invariant (fun self => wf self /\ num_inv self) nan_free); [ | | exact H].
  - split; [split; reflexivity|].
    split; repeat constructor.
  - intros self o Ho Hinv. now apply step_num_inv.
Qed.

End UnitInterval.

(** * The claims *)

(** C2. For every drive state, stimulus and time step that are floats,
    [DriveState.update] returns without raising and performs exactly:
    new level = clip(level + (optimal - level) * 0.1 + stimulus * delta_time,
    0.0, 1.0); then urgency = |new level - optimal|; then the new level is
    appended to the drive's history, so that it is its last entry (the
    oldest entry leaves a history that held 100).  The optimal level and the
    kind are untouched, and [clip] is the clamp: 0 below 0, 1 above 1, and
    the argument itself (up to the sign of zero) inside the interval. *)
Theorem drive_update_exact (self : DriveState.t) (stimulus delta_time : float) :
  let level :=
    clip (DriveState.current_level self
          + (DriveState.optimal_level self - DriveState.current_level self) * 0.1
          + stimulus * delta_time)%float 0 1 in
  let r := DriveState.update self (PyFloat stimulus) delta_time in
  snd r = Ok tt
  /\ DriveState.current_level (fst r) = level
  /\ DriveState.urgency (fst r) = abs (level - DriveState.optimal_level self)
  /\ DriveState.satisfaction_history (fst r) =
     append_bounded 100 (DriveState.satisfaction_history self) level
  /\ last (DriveState.satisfaction_history (fst r)) 0%float = level
  /\ ((List.length (DriveState.satisfaction_history self) < 100)%nat ->
      DriveState.satisfaction_history (fst r) =
      DriveState.satisfaction_history self ++ [level])
  /\ DriveState.optimal_level (fst r) = DriveState.optimal_level self
  /\ DriveState.drive_type (fst r) = DriveState.drive_type self
  /\ (forall x, (x <? 0)%float = true -> clip x 0 1 = 0%float)
  /\ (forall x, (1 <? x)%float = true -> clip x 0 1 = 1%float)
  /\ (forall x, in01 x = true -> (clip x 0 1 =? x)%float = true).
Proof.
  intros level r. subst r. rewrite update_numeric. cbn [fst snd]. cbv zeta.
  cbn [DriveState.current_level DriveState.urgency DriveState.satisfaction_history
       DriveState.optimal_level DriveState.drive_type].
  fold level.
  repeat split.
  - apply append_bounded_last. lia.
  - intros H. now apply append_bounded_below.
  - apply FloatFacts.clip_below.
  - apply FloatFacts.clip_above.
  - apply FloatFacts.clip_inside.
Qed.

(** C3, as amended.  In every core reached from a fresh one by calls whose
    stimulus effects [stimulus * delta_time] and signal changes are not NaN,
    every drive level and every signal value lies in [0, 1]; and from such
    a core, any drive update whose stimulus effect is not NaN leaves the
    drive with a level in [0, 1] and an urgency equal to
    |level - optimal|, and any interoception update whose changes are not
    NaN leaves every signal value in [0, 1]. *)
Theorem unit_interval_preserved (ops : list op) :
  forallb nan_free ops = true ->
  let self := run ops in
  (forall k st, In (k, st) (drives self) -> in01 (DriveState.current_level st) = true)
  /\ (forall nm sg, In (nm, sg) (interoceptive_signals self) ->
        in01 (InteroceptiveSignal.current_value sg) = true)
  /\ (forall k st stimulus delta_time,
        In (k, st) (drives self) ->
        is_nan (stimulus * delta_time) = false ->
        let st' := fst (DriveState.update st (PyFloat stimulus) delta_time) in
        in01 (DriveState.current_level st') = true
        /\ DriveState.urgency st' =
           abs (DriveState.current_level st' - DriveState.optimal_level st'))
  /\ (forall internal_changes nm sg,
        forallb change_ok internal_changes = true ->
        In (nm, sg) (interoceptive_signals
                       (fst (update_interoception self internal_changes))) ->
        in01 (InteroceptiveSignal.current_value sg) = true).
Proof.
  intros Hops self.
  destruct (run_num_inv ops Hops) as [Hd Hs]. fold self in Hd, Hs.
  rewrite Forall_forall in Hd, Hs.
  split; [|split; [|split]].
  - intros k st Hin. now destruct (Hd _ Hin) as (H & _).
  - intros nm sg Hin. exact (Hs _ Hin).
  - intros k st stimulus delta_time Hin Heff st'.
    destruct (update_drive_num st stimulus delta_time (Hd _ Hin) Heff) as (Hl & _).
    split; [exact Hl | reflexivity].
  - intros internal_changes nm sg Hch Hin.
    assert (Hops' : forallb nan_free (ops ++ [UpdateInteroception internal_changes]) = true).
    { rewrite forallb_app, Hops. simpl. now rewrite Hch. }
    destruct (run_num_inv _ Hops') as [_ Hs']. rewrite run_snoc in Hs'.
    rewrite Forall_forall in Hs'. exact (Hs' _ Hin).
Qed.

(** C3 as stated fails: infinity and 0.0 are numbers, their product is a
    NaN, and [clip] hands a NaN back, so the level of Seek leaves [0, 1];
    the same happens for a NaN stimulus and for a NaN signal change. *)
Lemma unit_interval_counterexample :
  (exists st,
     drive_of (drives (run [UpdateDrives [(KDrive SEEK, PyFloat infinity)] 0%float])) SEEK
     = Some st
     /\ in01 (DriveState.current_level st) = false)
  /\ (exists st,
        drive_of (drives (run [UpdateDrives [(KDrive SEEK, PyFloat nan)] 1%float])) SEEK
        = Some st
        /\ in01 (DriveState.current_level st) = false)
  /\ (exists sg,
        In ("energy"%string, sg)
           (interoceptive_signals
              (run [UpdateInteroception [(KStr "energy", PyFloat nan)]]))
        /\ in01 (InteroceptiveSignal.current_value sg) = false).
Proof.
  repeat split.
  - eexists. split; [vm_compute; reflexivity | vm_compute; reflexivity].
  - eexists. split; [vm_compute; reflexivity | vm_compute; reflexivity].
  - eexists. split; [left; vm_compute; reflexivity | vm_compute; reflexivity].
Qed.

(** A run that satisfies the hypothesis of C3 as amended. *)
Lemma unit_interval_preserved_witness :
  let ops := [UpdateDrives [(KDrive SEEK, PyFloat 0.3); (KDrive AVOID, PyFloat infinity);
                            (KDrive REST, PyFloat (-0.2))] 1%float;
              UpdateInteroception [(KStr "energy", PyFloat (-0.5))];
              AdvanceDevelopmentalStage]%float in
  forallb nan_free ops = true
  /\ (forall k st, In (k, st) (drives (run ops)) ->
        in01 (DriveState.current_level st) = true).
Proof.
  split; [vm_compute; reflexivity|].
  apply (unit_interval_preserved
           [UpdateDrives [(KDrive SEEK, PyFloat 0.3); (KDrive AVOID, PyFloat infinity);
                          (KDrive REST, PyFloat (-0.2))] 1%float;
            UpdateInteroception [(KStr "energy", PyFloat (-0.5))];
            AdvanceDevelopmentalStage]%float).
  vm_compute; reflexivity.
Defined.

(** C4. After every sequence of calls on a fresh core, no drive's history
    exceeds 100 entries, [affective_history] does not exceed 1000 and
    [decision_history] does not exceed 500; and each append to one of them
    keeps the list in order with the new entry last, dropping the oldest
    entry (the head) exactly when the list was at its bound. *)
Theorem histories_bounded_fifo (ops : list op) :
  let self := run ops in
  (forall k st, In (k, st) (drives self) ->
     (List.length (DriveState.satisfaction_history st) <= 100)%nat)
  /\ (List.length (affective_history self) <= 1000)%nat
  /\ (List.length (decision_history self) <= 500)%nat
  /\ (forall k st stimulus delta_time,
        In (k, st) (drives self) ->
        let h := DriveState.satisfaction_history st in
        let st' := fst (DriveState.update st (PyFloat stimulus) delta_time) in
        DriveState.satisfaction_history st' =
        if (List.length h <? 100)%nat
        then h ++ [DriveState.current_level st']
        else tl h ++ [DriveState.current_level st'])
  /\ (forall external_stimuli delta_time total,
        snd (update_drives self external_stimuli delta_time) = Ok total ->
        let h := affective_history self in
        exists entry,
          ar_timestamp entry = List.length h /\ ar_tension entry = total
          /\ affective_history (fst (update_drives self external_stimuli delta_time)) =
             if (List.length h <? 1000)%nat then h ++ [entry] else tl h ++ [entry])
  /\ (forall decision_context choice,
        let h := decision_history self in
        exists entry,
          dr_timestamp entry = List.length h /\ dr_choice entry = choice
          /\ decision_history (record_decision self decision_context choice) =
             if (List.length h <? 500)%nat then h ++ [entry] else tl h ++ [entry]).
Proof.
  intros self. destruct (run_hist_inv ops) as (Hd & Ha & Hc). fold self in Hd, Ha, Hc.
  rewrite Forall_forall in Hd.
  repeat split; try assumption.
  - intros k st Hin. exact (Hd _ Hin).
  - intros k st stimulus delta_time Hin h st'. subst st'.
    rewrite update_numeric. cbn [fst]. cbv zeta.
    cbn [DriveState.satisfaction_history DriveState.current_level].
    apply append_bounded_fifo; [lia | exact (Hd _ Hin)].
  - intros external_stimuli delta_time total Hok h.
    destruct (update_drives_ok_history _ _ _ _ Hok) as (_ & entry & Ht & Hten & ->).
    exists entry. repeat split; try assumption.
    apply append_bounded_fifo; [lia | assumption].
  - intros decision_context choice h.
    exists (mkDecisionRecord (List.length h) decision_context choice
                             (get_affective_summary self)).
    repeat split. simpl. apply append_bounded_fifo; [lia | assumption].
Qed.

(** ** The total tension *)
Section TotalTension.

Lemma numeric_dict_get s k d :
  numeric_dict s = true -> is_numeric (dict_get s k (PyFloat d)) = true.
Proof.
  unfold numeric_dict. induction s as [|[k' v] rest IH]; simpl; [reflexivity|].
  intros H. apply andb_true_iff in H. destruct H as [Hv Hrest].
  destruct (pykey_eqb k' k); auto.
Qed.

Lemma update_drives_loop_numeric s dt :
  numeric_dict s = true ->
  forall ds total,
    update_drives_loop ds s dt total =
    (map (updated s dt) ds,
     Ok (fold_left
           (fun acc '(_, st) =>
              (acc + DriveState.urgency st * DriveState.tension st)%float)
           (map (updated s dt) ds) total)).
Proof.
  intros Hs. induction ds as [|[k st] rest IH]; intros total; [reflexivity|].
  cbn [update_drives_loop map fold_left].
  change (updated s dt (k, st))
    with (k, fst (DriveState.update st (stimulus_of s k) dt)).
  change (dict_get s (KDrive k) (PyFloat 0)) with (stimulus_of s k).
  pose proof (numeric_dict_get s (KDrive k) 0%float Hs) as Hnum.
  change (dict_get s (KDrive k) (PyFloat 0)) with (stimulus_of s k) in Hnum.
  destruct (stimulus_of s k) as [f| |]; try discriminate.
  rewrite update_numeric. cbn [fst snd]. cbv zeta. now rewrite IH.
Qed.

Lemma interoceptive_tension_sum self :
  _compute_interoceptive_tension self = interoceptive_sum (interoceptive_signals self).
Proof.
  unfold _compute_interoceptive_tension, interoceptive_sum.
  generalize 0%float. induction (interoceptive_signals self) as [|[nm sg] rest IH];
    intros acc; [reflexivity|].
  cbn [fold_left map filter snd].
  destruct (negb (InteroceptiveSignal.is_optimal sg)); cbn [fold_left]; apply IH.
Qed.

Lemma updated_urgency s dt entry :
  is_numeric (stimulus_of s (fst entry)) = true ->
  DriveState.urgency (snd (updated s dt entry)) =
  DriveState.tension (snd (updated s dt entry)).
Proof.
  unfold updated. cbn [fst snd].
  destruct (stimulus_of s (fst entry)); try discriminate. reflexivity.
Qed.

End TotalTension.

(** C1. For every stimuli mapping of numeric values and every time step,
    [update_drives] on a core with its seven drives returns, and stores in
    [current_tension], the sum over the seven drives (in iteration order,
    from 0.0) of urgency times tension taken on each drive's state after its
    update, plus the interoceptive tension; each drive term is the tension
    squared, because the urgency is the tension right after the update; and
    the interoceptive tension is the sum of deviation times weight over the
    signals outside their optimal range, the others adding nothing. *)
Theorem update_drives_total (self : AffectiveCore.t)
    (external_stimuli : dict pykey pyval) (delta_time : float) :
  map fst (drives self) = all_drive_types ->
  numeric_dict external_stimuli = true ->
  let r := update_drives self external_stimuli delta_time in
  let total :=
    (drive_tension_sum (drives (fst r))
     + interoceptive_sum (interoceptive_signals (fst r)))%float in
  snd r = Ok total
  /\ current_tension (fst r) = total
  /\ drives (fst r) = map (updated external_stimuli delta_time) (drives self)
  /\ map fst (drives (fst r)) = all_drive_types
  /\ interoceptive_signals (fst r) = interoceptive_signals self
  /\ (forall k st, In (k, st) (drives (fst r)) ->
        DriveState.urgency st = DriveState.tension st
        /\ (DriveState.urgency st * DriveState.tension st
            = DriveState.tension st * DriveState.tension st)%float)
  /\ _compute_interoceptive_tension (fst r) =
     interoceptive_sum (interoceptive_signals (fst r)).
Proof.
  intros Hkeys Hnum r total.
  assert (Hd : drives (fst r) = map (updated external_stimuli delta_time) (drives self)).
  { subst r. rewrite update_drives_drives, update_drives_loop_numeric by assumption.
    reflexivity. }
  destruct (update_drives_frame self external_stimuli delta_time) as (Hs & _).
  fold r in Hs.
  assert (Hr : snd r = Ok total).
  { subst r total. rewrite update_drives_result.
    rewrite Hd, Hs, update_drives_loop_numeric by assumption. cbn [snd].
    now rewrite interoceptive_tension_sum. }
  assert (Hurg : forall k st, In (k, st) (drives (fst r)) ->
                 DriveState.urgency st = DriveState.tension st).
  { intros k st Hin. rewrite Hd in Hin. apply in_map_iff in Hin.
    destruct Hin as (entry & E & _).
    replace st with (snd (updated external_stimuli delta_time entry)) by now rewrite E.
    apply updated_urgency. now apply numeric_dict_get. }
  split; [exact Hr|]. split.
  { now destruct (update_drives_ok_history _ _ _ _ Hr) as (Ht & _). }
  split; [exact Hd|]. split.
  { rewrite Hd, map_map, <- Hkeys. apply map_ext. now intros [k st]. }
  split; [exact Hs|]. split.
  { intros k st Hin. split; [now apply (Hurg k) | now rewrite (Hurg k st Hin)]. }
  apply interoceptive_tension_sum.
Qed.

(** The demonstration call of the program satisfies the hypotheses of C1. *)
Lemma update_drives_total_witness :
  let stimuli := [(KDrive SEEK, PyFloat 0.3); (KDrive AVOID, PyFloat 0.4);
                  (KDrive REST, PyFloat (-0.2))]%float in
  map fst (drives init) = all_drive_types
  /\ numeric_dict stimuli = true
  /\ snd (update_drives init stimuli 1%float) =
     Ok (drive_tension_sum (drives (fst (update_drives init stimuli 1%float)))
         + interoceptive_sum
             (interoceptive_signals (fst (update_drives init stimuli 1%float))))%float.
Proof.
  split; [reflexivity|]. split; [reflexivity|].
  apply (update_drives_total init
           [(KDrive SEEK, PyFloat 0.3); (KDrive AVOID, PyFloat 0.4);
            (KDrive REST, PyFloat (-0.2))]%float 1%float); reflexivity.
Defined.

(** ** Conflict and dominance *)
Section Conflict.

Import FloatFacts.
Implicit Types (self : AffectiveCore.t).

(** A dictionary with the seven kinds as keys, in order. *)
Lemma seven_drives (ds : dict DriveType DriveState.t) :
  map fst ds = all_drive_types ->
  exists s1 s2 s3 s4 s5 s6 s7,
    ds = [(SEEK, s1); (AVOID, s2); (REST, s3); (CARE, s4);
          (PLAY, s5); (RAGE, s6); (LUST, s7)].
Proof.
  unfold all_drive_types. intros H.
  do 7 (destruct ds as [|[? ?] ds]; [discriminate H|];
        cbn [map fst] in H; injection H as ? H; subst).
  destruct ds; [|discriminate H].
  repeat eexists.
Qed.

Lemma conflict_matches_spec self :
  map fst (drives self) = all_drive_types ->
  compute_affective_conflict self = conflict_spec self.
Proof.
  intros H. destruct (seven_drives _ H) as (s1 & s2 & s3 & s4 & s5 & s6 & s7 & E).
  unfold compute_affective_conflict, conflict_spec, is_urgent, urgency_of.
  rewrite E. clear E H.
  destruct s1 as [t1 l1 o1 u1 h1], s2 as [t2 l2 o2 u2 h2], s3 as [t3 l3 o3 u3 h3],
           s4 as [t4 l4 o4 u4 h4], s5 as [t5 l5 o5 u5 h5], s6 as [t6 l6 o6 u6 h6],
           s7 as [t7 l7 o7 u7 h7].
  cbv [drive_of DriveType_eqb all_drive_types filter unordered_pairs map app
       fold_left unordered_opposed andb DriveState.urgency].
  destruct (0.3 <? u1)%float; destruct (0.3 <? u2)%float;
    destruct (0.3 <? u3)%float; destruct (0.3 <? u4)%float;
    destruct (0.3 <? u5)%float; destruct (0.3 <? u6)%float;
    destruct (0.3 <? u7)%float; reflexivity.
Qed.

Lemma drives_opposed_unordered a b : _drives_opposed a b = unordered_opposed a b.
Proof. destruct a, b; reflexivity. Qed.

Lemma scan_first_max (l : list (DriveType * DriveState.t)) :
  forallb (fun entry => (-1 <? DriveState.urgency (snd entry))%float) l = true ->
  l <> [] ->
  exists pre k st post,
    l = pre ++ (k, st) :: post
    /\ fold_left dominant_step l (None, (-1)%float) = (Some k, DriveState.urgency st)
    /\ (forall entry, In entry pre ->
          (DriveState.urgency (snd entry) <? DriveState.urgency st)%float = true)
    /\ (forall entry, In entry post ->
          (DriveState.urgency (snd entry) <=? DriveState.urgency st)%float = true).
Proof.
  induction l as [|[kx sx] l IH] using rev_ind; intros Hall Hne; [congruence|].
  rewrite forallb_app in Hall. apply andb_true_iff in Hall. destruct Hall as [Hall Hx].
  cbn [forallb snd] in Hx. rewrite andb_true_r in Hx.
  rewrite fold_left_app. cbn [fold_left].
  destruct l as [|e0 l0].
  - exists [], kx, sx, []. cbn [fold_left dominant_step]. rewrite Hx.
    repeat split; intros entry [].
  - destruct (IH Hall ltac:(discriminate)) as (pre & k & st & post & El & Ef & Hpre & Hpost).
    rewrite Ef. cbn [dominant_step].
    assert (Hk : (-1 <? DriveState.urgency st)%float = true).
    { rewrite forallb_forall in Hall. apply (Hall (k, st)). rewrite El.
      apply in_or_app. right. now left. }
    destruct (DriveState.urgency st <? DriveState.urgency sx)%float eqn:Elt.
    + exists (e0 :: l0), kx, sx, []. repeat split; [| intros entry []].
      intros entry Hin. rewrite El in Hin. apply in_app_or in Hin.
      destruct Hin as [Hin | [<- | Hin]].
      * eapply leb_ltb_trans; [apply ltb_leb, Hpre, Hin | exact Elt].
      * exact Elt.
      * eapply leb_ltb_trans; [apply Hpost, Hin | exact Elt].
    + exists pre, k, st, (post ++ [(kx, sx)]). repeat split.
      * rewrite El. now rewrite <- app_assoc.
      * exact Hpre.
      * intros entry Hin. apply in_app_or in Hin. destruct Hin as [Hin | [<- | []]].
        -- now apply Hpost.
        -- apply ltb_false_leb; [ | | exact Elt].
           ++ eapply ltb_not_nan_r, Hk.
           ++ eapply ltb_not_nan_r, Hx.
Qed.

(** Every core reached through calls free of NaN has the urgencies that
    [get_dominant_drive] expects: numbers above its initial -1.0. *)
Lemma run_urgency_above_sentinel (ops : list op) :
  forallb nan_free ops = true ->
  forallb (fun entry => (-1 <? DriveState.urgency (snd entry))%float)
          (drives (run ops)) = true.
Proof.
  intros H. destruct (run_num_inv ops H) as [Hd _].
  apply forallb_forall. rewrite Forall_forall in Hd.
  intros entry Hin. destruct (Hd _ Hin) as (_ & _ & Hu).
  exact (ltb_leb_trans (-1) 0 _ eq_refl Hu).
Qed.

End Conflict.

(** C6. On a core with its seven drives, [compute_affective_conflict]
    returns exactly 0.0 whenever fewer than two drives have urgency > 0.3;
    otherwise it returns the sum (from 0.0, in enumeration order of the
    pairs) over every unordered pair of drives that both have urgency > 0.3
    and form one of {Seek, Avoid}, {Rage, Care}, {Play, Rest}, of the product
    of the two urgencies, so that only those three pairs can contribute;
    pairs with Lust and all other pairs add nothing; and the call leaves the
    core as it was. *)
Theorem conflict_exact (self : AffectiveCore.t) :
  map fst (drives self) = all_drive_types ->
  compute_affective_conflict self = conflict_spec self
  /\ ((List.length (filter (is_urgent self) all_drive_types) < 2)%nat ->
      compute_affective_conflict self = 0%float)
  /\ ((2 <= List.length (filter (is_urgent self) all_drive_types))%nat ->
      compute_affective_conflict self =
      opposed_term self CARE RAGE
        (opposed_term self REST PLAY (opposed_term self SEEK AVOID 0%float)))
  /\ (forall a b, _drives_opposed a b = unordered_opposed a b)
  /\ (forall k, _drives_opposed LUST k = false /\ _drives_opposed k LUST = false)
  /\ step self ComputeAffectiveConflict = self.
Proof.
  intros H. pose proof (conflict_matches_spec self H) as E.
  repeat split; try assumption.
  - intros Hlt. rewrite E. unfold conflict_spec.
    apply Nat.ltb_lt in Hlt. now rewrite Hlt.
  - intros Hge. rewrite E. unfold conflict_spec.
    apply Nat.ltb_ge in Hge. rewrite Hge. reflexivity.
  - intros a b. apply drives_opposed_unordered.
  - destruct k; reflexivity.
  - destruct k; reflexivity.
Qed.

(** A core in which Seek, Avoid and Lust are urgent: only the opposed pair
    {Seek, Avoid} contributes. *)
Lemma conflict_exact_witness :
  let self := run [UpdateDrives [(KDrive SEEK, PyFloat 1); (KDrive AVOID, PyFloat 1);
                                 (KDrive LUST, PyFloat 1)]%float 1%float] in
  map fst (drives self) = all_drive_types
  /\ filter (is_urgent self) all_drive_types = [SEEK; AVOID; LUST]
  /\ compute_affective_conflict self = conflict_spec self
  /\ compute_affective_conflict self
     = (0 + urgency_of self SEEK * urgency_of self AVOID)%float.
Proof.
  split; [reflexivity|]. split; [vm_compute; reflexivity|]. split.
  - exact (proj1 (conflict_exact
                    (run [UpdateDrives [(KDrive SEEK, PyFloat 1); (KDrive AVOID, PyFloat 1);
                                        (KDrive LUST, PyFloat 1)]%float 1%float])
                    eq_refl)).
  - vm_compute; reflexivity.
Defined.

(** C7. On a core with its seven drives, all of whose urgencies are numbers
    above the scan's initial -1.0 (as every urgency in [0, 1] is),
    [get_dominant_drive] returns a drive kind together with that drive's
    urgency; no drive has a higher urgency, and every drive enumerated before
    the returned one (in the order Seek, Avoid, Rest, Care, Play, Rage, Lust)
    has a strictly lower urgency, so among drives that share the maximal
    urgency the earliest is returned. *)
Theorem dominant_drive_first_max (self : AffectiveCore.t) :
  map fst (drives self) = all_drive_types ->
  forallb (fun entry => (-1 <? DriveState.urgency (snd entry))%float) (drives self) = true ->
  exists pre k st post,
    drives self = pre ++ (k, st) :: post
    /\ map fst pre ++ k :: map fst post = all_drive_types
    /\ get_dominant_drive self = (Some k, DriveState.urgency st)
    /\ (forall entry, In entry pre ->
          (DriveState.urgency (snd entry) <? DriveState.urgency st)%float = true)
    /\ (forall entry, In entry (drives self) ->
          (DriveState.urgency (snd entry) <=? DriveState.urgency st)%float = true).
Proof.
  intros Hkeys Hall.
  assert (Hne : drives self <> []) by (intros E; rewrite E in Hkeys; discriminate).
  destruct (scan_first_max (drives self) Hall Hne)
    as (pre & k & st & post & El & Ef & Hpre & Hpost).
  exists pre, k, st, post. repeat split; try assumption.
  - rewrite <- Hkeys, El, map_app. reflexivity.
  - intros entry Hin. rewrite El in Hin. apply in_app_or in Hin.
    destruct Hin as [Hin | [<- | Hin]].
    + apply FloatFacts.ltb_leb. now apply Hpre.
    + cbn [snd]. apply FloatFacts.leb_refl.
      rewrite forallb_forall in Hall.
      eapply FloatFacts.ltb_not_nan_r, (Hall (k, st)).
      rewrite El. apply in_or_app. right. now left.
    + now apply Hpost.
Qed.

(** Care and Lust are raised to the same maximal urgency by hand: the scan
    returns Care, the earlier of the two. *)
Lemma dominant_drive_first_max_witness :
  let self :=
    set_drives init
      [(SEEK, DriveState.mk SEEK 0.5 0.6 0.2 []); (AVOID, DriveState.mk AVOID 0.3 0.1 0.1 []);
       (REST, DriveState.mk REST 0.5 0.7 0.2 []); (CARE, DriveState.mk CARE 0.4 0.5 0.4 []);
       (PLAY, DriveState.mk PLAY 0.3 0.4 0.1 []); (RAGE, DriveState.mk RAGE 0.1 0.05 0.0 []);
       (LUST, DriveState.mk LUST 0.2 0.3 0.4 [])]%float in
  map fst (drives self) = all_drive_types
  /\ forallb (fun entry => (-1 <? DriveState.urgency (snd entry))%float) (drives self) = true
  /\ get_dominant_drive self = (Some CARE, 0.4%float)
  /\ exists pre k st post,
       drives self = pre ++ (k, st) :: post
       /\ map fst pre ++ k :: map fst post = all_drive_types
       /\ get_dominant_drive self = (Some k, DriveState.urgency st)
       /\ (forall entry, In entry pre ->
             (DriveState.urgency (snd entry) <? DriveState.urgency st)%float = true)
       /\ (forall entry, In entry (drives self) ->
             (DriveState.urgency (snd entry) <=? DriveState.urgency st)%float = true).
Proof.
  split; [reflexivity|]. split; [vm_compute; reflexivity|]. split; [vm_compute; reflexivity|].
  apply (dominant_drive_first_max
           (set_drives init
              [(SEEK, DriveState.mk SEEK 0.5 0.6 0.2 []);
               (AVOID, DriveState.mk AVOID 0.3 0.1 0.1 []);
               (REST, DriveState.mk REST 0.5 0.7 0.2 []);
               (CARE, DriveState.mk CARE 0.4 0.5 0.4 []);
               (PLAY, DriveState.mk PLAY 0.3 0.4 0.1 []);
               (RAGE, DriveState.mk RAGE 0.1 0.05 0.0 []);
               (LUST, DriveState.mk LUST 0.2 0.3 0.4 [])]%float));
    [reflexivity | vm_compute; reflexivity].
Defined.

(** C10. On a freshly constructed core every drive's urgency is 0.0, so
    [get_dominant_drive] returns (Seek, 0.0), the first kind in enumeration
    order, although Avoid has the largest initial tension: |0.3 - 0.1|, which
    is 0.2 up to the rounding of the subtraction, and strictly above the
    tension of every other drive. *)
Theorem fresh_core_dominant :
  (forall k st, In (k, st) (drives init) -> DriveState.urgency st = 0%float)
  /\ get_dominant_drive init = (Some SEEK, 0%float)
  /\ exists avoid,
       drive_of (drives init) AVOID = Some avoid
       /\ DriveState.tension avoid = abs (0.3 - 0.1)%float
       /\ (abs (DriveState.tension avoid - 0.2) <? 0.0000000000000001)%float = true
       /\ (0 <? DriveState.tension avoid)%float = true
       /\ (forall k st, In (k, st) (drives init) ->
             k = AVOID
             \/ (DriveState.tension st <? DriveState.tension avoid)%float = true).
Proof.
  split; [|split].
  - intros k st Hin. simpl in Hin.
    repeat (destruct Hin as [Hin|Hin]; [now inversion Hin|]). destruct Hin.
  - reflexivity.
  - eexists. split; [reflexivity|]. split; [reflexivity|].
    split; [vm_compute; reflexivity|]. split; [vm_compute; reflexivity|].
    intros k st Hin. simpl in Hin.
    repeat (destruct Hin as [Hin|Hin];
            [inversion Hin; subst; first [now left | right; vm_compute; reflexivity]|]).
    destruct Hin.
Qed.

(** ** The developmental stage *)
Section Stage.

Implicit Types (self : AffectiveCore.t).

Lemma DriveType_eqb_eq a b : DriveType_eqb a b = true <-> a = b.
Proof. destruct a, b; simpl; split; intros H; try reflexivity; discriminate. Qed.

Lemma drive_of_map (g : DriveType -> DriveState.t -> DriveState.t) ds k :
  drive_of (map (fun '(k', st) => (k', g k' st)) ds) k = option_map (g k) (drive_of ds k).
Proof.
  induction ds as [|[k' st] rest IH]; simpl; [reflexivity|].
  destruct (DriveType_eqb k' k) eqn:E; [|exact IH].
  apply DriveType_eqb_eq in E. now subst.
Qed.

Lemma set_optimal_map ds k v :
  set_optimal ds k v =
  map (fun '(k', st) => (k', if DriveType_eqb k' k then with_optimal st v else st)) ds.
Proof.
  unfold set_optimal. apply map_ext. intros [k' st].
  destruct (DriveType_eqb k' k); reflexivity.
Qed.

Lemma step_stage self o :
  match o with
  | AdvanceDevelopmentalStage => True
  | _ => developmental_stage (step self o) = developmental_stage self
  end.
Proof.
  destruct o; simpl; try reflexivity; try exact I.
  - now destruct (update_drives_frame self external_stimuli delta_time) as (_ & _ & ->).
  - now destruct (update_interoception_frame self internal_changes)
      as (_ & _ & _ & _ & ->).
Qed.

End Stage.

(** C5. The developmental stage starts at 1 and no operation other than
    [advance_developmental_stage] changes it.  A call at stage 1 yields
    stage 2 with the optimal level of Seek at 0.7 and of Play at 0.6, every
    other optimal level and every other field of every drive unchanged; a
    call at stage 2 yields stage 3 with every drive's optimal level at 0.5;
    a call at stage 3 changes nothing at all. *)
Theorem developmental_stage_machine :
  developmental_stage init = 1%Z
  /\ (forall self o,
        match o with
        | AdvanceDevelopmentalStage => True
        | _ => developmental_stage (step self o) = developmental_stage self
        end)
  /\ (forall self,
        developmental_stage self = 1%Z ->
        developmental_stage (advance_developmental_stage self) = 2%Z
        /\ forall k,
             drive_of (drives (advance_developmental_stage self)) k =
             option_map
               (fun st =>
                  with_optimal st
                    match k with
                    | SEEK => 0.7%float
                    | PLAY => 0.6%float
                    | _ => DriveState.optimal_level st
                    end)
               (drive_of (drives self) k))
  /\ (forall self,
        developmental_stage self = 2%Z ->
        developmental_stage (advance_developmental_stage self) = 3%Z
        /\ forall k,
             drive_of (drives (advance_developmental_stage self)) k =
             option_map (fun st => with_optimal st 0.5%float) (drive_of (drives self) k))
  /\ (forall self,
        developmental_stage self = 3%Z -> advance_developmental_stage self = self).
Proof.
  split; [reflexivity|]. split; [exact step_stage|]. split; [|split].
  - intros self H. unfold advance_developmental_stage. rewrite H. simpl.
    split; [reflexivity|]. intros k.
    rewrite !set_optimal_map, map_map.
    rewrite (map_ext _
               (fun '(k', st) =>
                  (k', match k' with
                       | SEEK => with_optimal st 0.7%float
                       | PLAY => with_optimal st 0.6%float
                       | _ => st
                       end))).
    + rewrite (drive_of_map (fun k' st => match k' with
                                           | SEEK => with_optimal st 0.7%float
                                           | PLAY => with_optimal st 0.6%float
                                           | _ => st
                                           end)).
      destruct (drive_of (drives self) k) as [[t l o u h]|]; [|reflexivity].
      destruct k; reflexivity.
    + intros [k' st]. destruct k'; reflexivity.
  - intros self H. unfold advance_developmental_stage. rewrite H. simpl.
    split; [reflexivity|]. intros k.
    exact (drive_of_map (fun _ st => with_optimal st 0.5%float) (drives self) k).
  - intros self H. unfold advance_developmental_stage. now rewrite H.
Qed.

(** The three calls of the specification's scenario, from a fresh core. *)
Lemma developmental_stage_machine_witness :
  developmental_stage init = 1%Z
  /\ developmental_stage (advance_developmental_stage init) = 2%Z
  /\ map (fun entry => DriveState.optimal_level (snd entry))
         (drives (run [AdvanceDevelopmentalStage]))
     = [0.7; 0.1; 0.7; 0.5; 0.6; 0.05; 0.3]%float
  /\ map (fun entry => DriveState.optimal_level (snd entry))
         (drives (run [AdvanceDevelopmentalStage; AdvanceDevelopmentalStage]))
     = [0.5; 0.5; 0.5; 0.5; 0.5; 0.5; 0.5]%float
  /\ run [AdvanceDevelopmentalStage; AdvanceDevelopmentalStage; AdvanceDevelopmentalStage]
     = run [AdvanceDevelopmentalStage; AdvanceDevelopmentalStage].
Proof.
  destruct developmental_stage_machine as (H1 & _ & H2 & _ & H4).
  split; [exact H1|]. split; [exact (proj1 (H2 init eq_refl))|].
  split; [reflexivity|]. split; [reflexivity|].
  exact (H4 (run [AdvanceDevelopmentalStage; AdvanceDevelopmentalStage]) eq_refl).
Defined.

(** ** Failing calls and unknown keys *)
Section Failures.

Implicit Types (self : AffectiveCore.t).

Lemma update_drives_loop_raise s dt : forall ds total ds' e,
  update_drives_loop ds s dt total = (ds', Raise e) ->
  exists pre k st post,
    ds = pre ++ (k, st) :: post
    /\ is_numeric (stimulus_of s k) = false
    /\ forallb (fun entry => is_numeric (stimulus_of s (fst entry))) pre = true
    /\ ds' = map (updated s dt) pre ++ (k, st) :: post.
Proof.
  induction ds as [|[k st] rest IH]; intros total ds' e H; [discriminate|].
  cbn [update_drives_loop] in H.
  change (dict_get s (KDrive k) (PyFloat 0)) with (stimulus_of s k) in H.
  destruct (DriveState.update st (stimulus_of s k) dt) as [st' [u|e']] eqn:Eu.
  - destruct (update_drives_loop rest s dt _) as [rest' r] eqn:Er.
    injection H as <- ->.
    destruct (IH _ _ _ Er) as (pre & k0 & st0 & post & -> & Hbad & Hpre & ->).
    exists ((k, st) :: pre), k0, st0, post. repeat split; try assumption.
    + cbn [forallb fst]. rewrite Hpre, andb_true_r.
      eapply update_returns. rewrite Eu. reflexivity.
    + cbn [map app].
      change (updated s dt (k, st))
        with (k, fst (DriveState.update st (stimulus_of s k) dt)).
      now rewrite Eu.
  - inversion H; subst; clear H.
    assert (Hs : snd (DriveState.update st (stimulus_of s k) dt) = Raise e')
      by now rewrite Eu.
    destruct (update_raises _ _ _ _ Hs) as [Hbad Hst]. rewrite Eu in Hst. cbn [fst] in Hst.
    exists [], k, st, rest. subst st'. repeat split; assumption || reflexivity.
Qed.

Lemma dict_get_drive_filter (s : dict pykey pyval) k d :
  dict_get (filter (fun entry => is_drive_key (fst entry)) s) (KDrive k) d =
  dict_get s (KDrive k) d.
Proof.
  induction s as [|[k' v] rest IH]; [reflexivity|].
  cbn [filter fst]. destruct k' as [k'|nm]; cbn [is_drive_key dict_get pykey_eqb].
  - now rewrite IH.
  - exact IH.
Qed.

Lemma update_drives_loop_ext s s' dt :
  (forall k, stimulus_of s k = stimulus_of s' k) ->
  forall ds total, update_drives_loop ds s dt total = update_drives_loop ds s' dt total.
Proof.
  intros H. induction ds as [|[k st] rest IH]; intros total; [reflexivity|].
  cbn [update_drives_loop].
  change (dict_get s (KDrive k) (PyFloat 0)) with (stimulus_of s k).
  change (dict_get s' (KDrive k) (PyFloat 0)) with (stimulus_of s' k).
  rewrite H. destruct (DriveState.update st (stimulus_of s' k) dt) as [st' [u|e]];
    [now rewrite IH | reflexivity].
Qed.

Lemma update_drives_ext self s s' dt :
  (forall k, stimulus_of s k = stimulus_of s' k) ->
  update_drives self s dt = update_drives self s' dt.
Proof.
  intros H. unfold update_drives. now rewrite (update_drives_loop_ext s s' dt H).
Qed.

Lemma update_interoception_loop_unknown ch : forall sigs,
  forallb (fun entry => negb (has_signal sigs (fst entry))) ch = true ->
  update_interoception_loop sigs ch = (sigs, Ok tt).
Proof.
  induction ch as [|[k v] rest IH]; intros sigs H; [reflexivity|].
  cbn [forallb fst] in H. apply andb_true_iff in H. destruct H as [Hk Hrest].
  apply negb_true_iff in Hk. cbn [update_interoception_loop]. rewrite Hk. now apply IH.
Qed.

End Failures.

(** C8, as amended.  A failing [DriveState.update] leaves its drive as it
    was.  When [update_drives] raises on a stimulus that is not a number,
    the drive it raised on and every drive after it in iteration order are
    as before, and so are the signals, the tension field, both histories and
    the stage; the drives before it, whose stimuli were numbers, stay
    updated.  When [update_interoception] raises, the drives, the tension
    field, both histories and the stage are as before and the set of
    signals is the same. *)
Theorem failed_call_effects :
  (forall (st : DriveState.t) v delta_time e,
     snd (DriveState.update st v delta_time) = Raise e ->
     fst (DriveState.update st v delta_time) = st)
  /\ (forall self external_stimuli delta_time e,
        snd (update_drives self external_stimuli delta_time) = Raise e ->
        let self' := fst (update_drives self external_stimuli delta_time) in
        (exists pre k st post,
           drives self = pre ++ (k, st) :: post
           /\ is_numeric (stimulus_of external_stimuli k) = false
           /\ forallb (fun entry => is_numeric (stimulus_of external_stimuli (fst entry))) pre
              = true
           /\ drives self' = map (updated external_stimuli delta_time) pre ++ (k, st) :: post)
        /\ interoceptive_signals self' = interoceptive_signals self
        /\ current_tension self' = current_tension self
        /\ affective_history self' = affective_history self
        /\ decision_history self' = decision_history self
        /\ developmental_stage self' = developmental_stage self)
  /\ (forall self internal_changes e,
        snd (update_interoception self internal_changes) = Raise e ->
        let self' := fst (update_interoception self internal_changes) in
        drives self' = drives self
        /\ map fst (interoceptive_signals self') = map fst (interoceptive_signals self)
        /\ current_tension self' = current_tension self
        /\ affective_history self' = affective_history self
        /\ decision_history self' = decision_history self
        /\ developmental_stage self' = developmental_stage self).
Proof.
  split; [|split].
  - intros st v delta_time e H. now destruct (update_raises _ _ _ _ H).
  - intros self external_stimuli delta_time e H self'.
    destruct (update_drives_frame self external_stimuli delta_time) as (Hs & Hd & Hg).
    destruct (update_drives_raise_frame _ _ _ _ H) as (Ha & Ht).
    fold self' in Hs, Hd, Hg, Ha, Ht.
    repeat split; try assumption.
    rewrite update_drives_result in H. subst self'. rewrite update_drives_drives.
    destruct (update_drives_loop (drives self) external_stimuli delta_time 0)
      as [ds' [total|e']] eqn:El; [discriminate|].
    exact (update_drives_loop_raise _ _ _ _ _ _ El).
  - intros self internal_changes e _ self'.
    destruct (update_interoception_frame self internal_changes) as (Hd & Ha & Hc & Ht & Hg).
    fold self' in Hd, Ha, Hc, Ht, Hg.
    repeat split; try assumption.
    subst self'. rewrite update_interoception_signals.
    apply update_interoception_loop_keys.
Qed.

(** C8 as stated fails: a stimulus for Rest that is not a number makes
    [update_drives] raise after Seek and Avoid were updated, and their new
    level and history entry stay. *)
Lemma failed_call_counterexample :
  let r := update_drives init [(KDrive REST, PyStr "x")] 1%float in
  snd r = Raise TypeError
  /\ option_map DriveState.current_level (drive_of (drives init) SEEK) = Some 0.5%float
  /\ option_map DriveState.current_level (drive_of (drives (fst r)) SEEK) = Some 0.51%float
  /\ (0.5 =? 0.51)%float = false
  /\ option_map DriveState.satisfaction_history (drive_of (drives init) SEEK) = Some []
  /\ option_map DriveState.satisfaction_history (drive_of (drives (fst r)) SEEK)
     = Some [0.51%float]
  /\ option_map DriveState.urgency (drive_of (drives init) AVOID) = Some 0%float
  /\ option_map DriveState.urgency (drive_of (drives (fst r)) AVOID)
     = Some 0.17999999999999997%float.
Proof. vm_compute. repeat split. Qed.

(** The failing call of the counterexample, read through C8 as amended. *)
Lemma failed_call_effects_witness :
  let r := update_drives init [(KDrive REST, PyStr "x")] 1%float in
  snd r = Raise TypeError
  /\ interoceptive_signals (fst r) = interoceptive_signals init
  /\ affective_history (fst r) = affective_history init.
Proof.
  split; [reflexivity|].
  destruct (proj1 (proj2 failed_call_effects) init [(KDrive REST, PyStr "x")] 1%float
              TypeError eq_refl) as (_ & Hs & _ & Ha & _).
  split; assumption.
Defined.

(** C9, as amended.  [update_drives] looks up the seven kinds only and
    ignores every other key of the stimuli mapping, whatever its value: it
    raises no error for it and computes what it computes without it.
    [update_interoception] likewise ignores the names that are not signals
    of the core, raising no error. *)
Theorem unknown_keys_ignored :
  (forall self external_stimuli delta_time,
     update_drives self external_stimuli delta_time =
     update_drives self (filter (fun entry => is_drive_key (fst entry)) external_stimuli)
                   delta_time)
  /\ (forall self external_stimuli delta_time k v,
        is_drive_key k = false ->
        update_drives self ((k, v) :: external_stimuli) delta_time =
        update_drives self external_stimuli delta_time)
  /\ (forall self internal_changes,
        forallb (fun entry => negb (has_signal (interoceptive_signals self) (fst entry)))
                internal_changes = true ->
        update_interoception self internal_changes = (self, Ok tt))
  /\ (forall self internal_changes k v,
        has_signal (interoceptive_signals self) k = false ->
        update_interoception self ((k, v) :: internal_changes) =
        update_interoception self internal_changes).
Proof.
  repeat split.
  - intros self external_stimuli delta_time. apply update_drives_ext.
    intros k. unfold stimulus_of. now rewrite dict_get_drive_filter.
  - intros self external_stimuli delta_time k v Hk. apply update_drives_ext.
    intros k'. unfold stimulus_of. destruct k; [discriminate | reflexivity].
  - intros self internal_changes H. unfold update_interoception.
    rewrite update_interoception_loop_unknown by assumption. now destruct self.
  - intros self internal_changes k v Hk. unfold update_interoception.
    cbn [update_interoception_loop]. now rewrite Hk.
Qed.

(** C9 as stated fails in its first half: a stimuli mapping with a key
    outside the seven kinds is accepted, and the call returns what it returns
    for the empty mapping, whether the value under that key is a number or
    not. *)
Lemma unknown_keys_counterexample :
  snd (update_drives init [(KStr "HUNGER", PyFloat 1)] 1%float)
  = Ok 0.099224999999999966%float
  /\ update_drives init [(KStr "HUNGER", PyFloat 1)] 1%float = update_drives init [] 1%float
  /\ update_drives init [(KStr "HUNGER", PyStr "much")] 1%float = update_drives init [] 1%float.
Proof. vm_compute. repeat split. Qed.

(** Calls with unknown keys, read through C9 as amended. *)
Lemma unknown_keys_ignored_witness :
  update_drives init [(KStr "HUNGER", PyFloat 1)] 1%float = update_drives init [] 1%float
  /\ update_interoception init [(KStr "thirst", PyStr "x"); (KDrive SEEK, PyFloat 1)]
     = (init, Ok tt).
Proof.
  destruct unknown_keys_ignored as (_ & H2 & H3 & _).
  split.
  - exact (H2 init [] 1%float (KStr "HUNGER") (PyFloat 1) eq_refl).
  - exact (H3 init [(KStr "thirst", PyStr "x"); (KDrive SEEK, PyFloat 1)] eq_refl).
Defined.

(** * Further properties *)

(** ** Fields that never change, stage and optimal levels *)
Section Constants.

Implicit Types (self : AffectiveCore.t).

Lemma update_drive_type st v dt :
  DriveState.drive_type (fst (DriveState.update st v dt)) = DriveState.drive_type st.
Proof. destruct v; reflexivity. Qed.

Lemma update_signal_constants sigs nm c :
  map signal_constants (update_signal sigs nm c) = map signal_constants sigs.
Proof.
  induction sigs as [|[nm' sg] rest IH]; simpl; [reflexivity|].
  destruct (String.eqb nm' nm); simpl; [reflexivity | now rewrite IH].
Qed.

Lemma update_interoception_loop_constants ch : forall sigs,
  map signal_constants (fst (update_interoception_loop sigs ch)) = map signal_constants sigs.
Proof.
  induction ch as [|[k v] rest IH]; intros sigs; simpl; [reflexivity|].
  destruct (has_signal sigs k); [|apply IH].
  destruct k as [d|nm]; [reflexivity|].
  destruct v; try reflexivity. rewrite IH. apply update_signal_constants.
Qed.

Lemma step_constants self o :
  Forall (fun entry => DriveState.drive_type (snd entry) = fst entry) (drives self) ->
  Forall (fun entry => DriveState.drive_type (snd entry) = fst entry) (drives (step self o))
  /\ map signal_constants (interoceptive_signals (step self o)) =
     map signal_constants (interoceptive_signals self).
Proof.
  intros Hd. destruct o; simpl; try (split; [assumption | reflexivity]).
  - destruct (update_drives_frame self external_stimuli delta_time) as (-> & _).
    split; [|reflexivity]. rewrite update_drives_drives.
    apply (update_drives_loop_preserves (fun k st => DriveState.drive_type st = k));
      [|assumption].
    intros k st H. now rewrite update_drive_type.
  - destruct (update_interoception_frame self internal_changes) as (-> & _).
    split; [assumption|].
    rewrite update_interoception_signals. apply update_interoception_loop_constants.
  - destruct (advance_frame self) as (-> & _). split; [|reflexivity].
    destruct (advance_drives self) as (f & -> & _).
    rewrite Forall_map. eapply Forall_impl; [|exact Hd]. now intros [k st].
Qed.

Lemma run_constants ops :
  Forall (fun entry => DriveState.drive_type (snd entry) = fst entry) (drives (run ops))
  /\ map signal_constants (interoceptive_signals (run ops)) =
     map signal_constants _initialize_interoception.
Proof.
  apply (run_invariant
           (fun self =>
              Forall (fun entry => DriveState.drive_type (snd entry) = fst entry)
                     (drives self)
              /\ map signal_constants (interoceptive_signals self) =
                 map signal_constants _initialize_interoception)
           (fun _ => true)); [ | | apply forallb_always].
  - split; [repeat constructor | reflexivity].
  - intros self o _ [Hd Hs]. destruct (step_constants self o Hd) as [Hd' Hs'].
    split; [assumption | now rewrite Hs'].
Qed.

Lemma run_signal_constants ops :
  map signal_constants (interoceptive_signals (run ops)) =
  map signal_constants _initialize_interoception.
Proof. apply run_constants. Qed.

End Constants.

(** X1. Along every sequence of calls on a fresh core, the seven drives
    stay under their seven keys with [drive_type] equal to the key, and the
    four signals keep their name, [signal_type], [optimal_range] and
    [affective_weight]: only levels, urgencies, histories, optimal levels
    and signal values ever change. *)
Theorem constant_fields (ops : list op) :
  map fst (drives (run ops)) = all_drive_types
  /\ (forall k st, In (k, st) (drives (run ops)) -> DriveState.drive_type st = k)
  /\ map signal_constants (interoceptive_signals (run ops)) =
     map signal_constants _initialize_interoception.
Proof.
  split; [apply run_wf|].
  destruct (run_constants ops) as [Hd Hs]. split; [|exact Hs].
  intros k st Hin. rewrite Forall_forall in Hd. exact (Hd _ Hin).
Qed.

(** ** The stage counts the advances *)
Section StageCount.

Implicit Types (self : AffectiveCore.t).

Lemma advance_stage self :
  developmental_stage (advance_developmental_stage self) =
  if (developmental_stage self <? 3)%Z then (developmental_stage self + 1)%Z
  else developmental_stage self.
Proof.
  unfold advance_developmental_stage.
  destruct (developmental_stage self <? 3)%Z; [|reflexivity]. simpl.
  destruct (developmental_stage self + 1 =? 2)%Z; [reflexivity|].
  destruct (developmental_stage self + 1 =? 3)%Z; reflexivity.
Qed.

Lemma step_stage_inv self o : stage_inv self -> stage_inv (step self o).
Proof.
  intros [Hs Hd]. unfold stage_inv.
  destruct o; simpl; try (split; assumption).
  - destruct (update_drives_frame self external_stimuli delta_time) as (_ & _ & ->).
    split; [assumption|]. rewrite update_drives_drives.
    apply (update_drives_loop_preserves
             (fun k st => DriveState.optimal_level st =
                          optimal_at_stage (developmental_stage self) k));
      [|assumption].
    intros k st H. now rewrite update_optimal.
  - destruct (update_interoception_frame self internal_changes) as (-> & _ & _ & _ & ->).
    split; assumption.
  - rewrite advance_stage. unfold advance_developmental_stage.
    destruct (Z.ltb_spec (developmental_stage self) 3) as [Hlt|Hge].
    + assert (Hc : developmental_stage self = 1%Z \/ developmental_stage self = 2%Z) by lia.
      destruct Hc as [E|E]; rewrite E in *; simpl.
      * split; [lia|]. rewrite !set_optimal_map, map_map, Forall_map.
        eapply Forall_impl; [|exact Hd]. intros [k st] H. simpl in *.
        destruct k; simpl; exact H || reflexivity.
      * split; [lia|]. rewrite Forall_map.
        eapply Forall_impl; [|exact Hd]. intros [k st] _. reflexivity.
    + split; assumption.
Qed.

Lemma stage_counts_advances_range ops :
  (1 <= developmental_stage (run ops))%Z /\ (developmental_stage (run ops) <= 3)%Z.
Proof.
  assert (H : stage_inv (run ops)).
  { apply (run_invariant stage_inv (fun _ => true)); [ | | apply forallb_always].
    - split; [simpl; lia | repeat constructor].
    - intros self o _. apply step_stage_inv. }
  destruct H as [H _]. lia.
Qed.

End StageCount.

(** X2. After every sequence of calls on a fresh core the developmental
    stage is 1 plus the number of [advance_developmental_stage] calls made,
    capped at 3 (so it never decreases and never leaves 1..3), and every
    drive's optimal level is the one of that stage: the initial one at stage
    1, the initial one with Seek at 0.7 and Play at 0.6 at stage 2, and 0.5
    at stage 3.  No other operation and no stimulus ever moves an optimal
    level. *)
Theorem stage_counts_advances (ops : list op) :
  developmental_stage (run ops) =
  Z.min 3 (1 + Z.of_nat (List.length (filter is_advance ops)))
  /\ forall k st, In (k, st) (drives (run ops)) ->
       DriveState.optimal_level st = optimal_at_stage (developmental_stage (run ops)) k.
Proof.
  split.
  - induction ops as [|o ops IH] using rev_ind; [reflexivity|].
    rewrite run_snoc, filter_app, length_app, Nat2Z.inj_add.
    pose proof (step_stage (run ops) o) as Hs.
    destruct o; cbn [filter is_advance List.length]; try (rewrite Hs, IH; lia).
    cbn [step]. rewrite advance_stage, IH.
    destruct (Z.ltb_spec (Z.min 3 (1 + Z.of_nat (List.length (filter is_advance ops)))) 3);
      lia.
  - assert (H : stage_inv (run ops)).
    { apply (run_invariant stage_inv (fun _ => true)); [ | | apply forallb_always].
      - split; [simpl; lia | repeat constructor].
      - intros self o _. apply step_stage_inv. }
    destruct H as [_ Hd]. rewrite Forall_forall in Hd.
    intros k st Hin. exact (Hd _ Hin).
Qed.

(** ** Histories *)
Section Histories.

Implicit Types (self : AffectiveCore.t).

Lemma map_append_bounded {A B : Type} (f : A -> B) bound (lst : list A) x :
  map f (append_bounded bound lst x) = append_bounded bound (map f lst) (f x).
Proof.
  unfold append_bounded.
  replace (List.length (map f lst ++ [f x])) with (List.length (lst ++ [x]))
    by now rewrite !length_app, length_map.
  destruct (bound <? List.length (lst ++ [x]))%nat; [|now rewrite map_app].
  destruct lst; [reflexivity|]. cbn [app tl map]. now rewrite map_app.
Qed.



Lemma forallb_over_map {A B : Type} (p : B -> bool) (g : A -> B) (l : list A) :
  forallb p (map g l) = forallb (fun x => p (g x)) l.
Proof. induction l as [|a l IH]; simpl; [reflexivity | now rewrite IH]. Qed.


(** [update_drives] returns exactly when the seven stimuli are numbers. *)
Lemma update_drives_loop_returns s dt : forall ds total,
  match snd (update_drives_loop ds s dt total) with
  | Ok _ => forallb (fun entry => is_numeric (stimulus_of s (fst entry))) ds = true
  | Raise _ => forallb (fun entry => is_numeric (stimulus_of s (fst entry))) ds = false
  end.
Proof.
  induction ds as [|[k st] rest IH]; intros total; [reflexivity|].
  cbn [update_drives_loop forallb fst].
  change (dict_get s (KDrive k) (PyFloat 0)) with (stimulus_of s k).
  destruct (stimulus_of s k) as [f| |]; try reflexivity.
  rewrite update_numeric. cbv zeta. cbn [is_numeric andb].
  match goal with
  | |- context [update_drives_loop rest s dt ?t] =>
      specialize (IH t); destruct (update_drives_loop rest s dt t) as [rest' r]
  end.
  exact IH.
Qed.

Lemma update_drives_returns self s dt :
  map fst (drives self) = all_drive_types ->
  match snd (update_drives self s dt) with
  | Ok _ => is_numeric_update (UpdateDrives s dt) = true
  | Raise _ => is_numeric_update (UpdateDrives s dt) = false
  end.
Proof.
  intros Hk. rewrite update_drives_result.
  pose proof (update_drives_loop_returns s dt (drives self) 0%float) as H.
  assert (E : forallb (fun entry => is_numeric (stimulus_of s (fst entry))) (drives self)
              = is_numeric_update (UpdateDrives s dt)).
  { cbn [is_numeric_update]. rewrite <- Hk. now rewrite forallb_over_map. }
  rewrite E in H.
  destruct (snd (update_drives_loop (drives self) s dt 0)); exact H.
Qed.

End Histories.

Section HistoryInvariants.

Implicit Types (self : AffectiveCore.t).


End HistoryInvariants.


(** ** Which drives a call updates *)
Section Reached.

Implicit Types (self : AffectiveCore.t).

Lemma update_not_numeric st v dt :
  is_numeric v = false -> DriveState.update st v dt = (st, Raise TypeError).
Proof. destruct v; [discriminate | reflexivity ..]. Qed.

Lemma update_drives_loop_cons k st rest s dt total :
  update_drives_loop ((k, st) :: rest) s dt total =
  if is_numeric (stimulus_of s k) then
    let st' := snd (updated s dt (k, st)) in
    ((k, st') :: fst (update_drives_loop rest s dt
                        (total + DriveState.urgency st' * DriveState.tension st')%float),
     snd (update_drives_loop rest s dt
            (total + DriveState.urgency st' * DriveState.tension st')%float))
  else ((k, st) :: rest, Raise TypeError).
Proof.
  cbn [update_drives_loop]. unfold updated. cbn [fst snd].
  change (dict_get s (KDrive k) (PyFloat 0)) with (stimulus_of s k).
  destruct (is_numeric (stimulus_of s k)) eqn:E.
  - destruct (stimulus_of s k) as [f| |]; try discriminate.
    rewrite update_numeric. cbv zeta. cbn [fst snd].
    now destruct (update_drives_loop rest s dt _).
  - now rewrite update_not_numeric.
Qed.

Lemma update_drives_reached self s dt :
  map fst (drives self) = all_drive_types ->
  drives (fst (update_drives self s dt)) =
  map (fun entry => if reached s (fst entry) then updated s dt entry else entry)
      (drives self).
Proof.
  intros H. destruct (seven_drives _ H) as (s1 & s2 & s3 & s4 & s5 & s6 & s7 & E).
  rewrite update_drives_drives, E. clear E H.
  unfold reached. cbn [map fst kinds_through forallb].
  repeat (rewrite update_drives_loop_cons;
          match goal with
          | |- context [is_numeric (stimulus_of s ?k)] =>
              destruct (is_numeric (stimulus_of s k)); cbn [andb fst snd]; cbv zeta;
              [|reflexivity]
          end).
  reflexivity.
Qed.

Lemma append_bounded_length_eq {A : Type} bound (lst : list A) x :
  (List.length lst <= bound)%nat ->
  List.length (append_bounded bound lst x) = Nat.min (S (List.length lst)) bound.
Proof.
  intros H. unfold append_bounded. rewrite length_app, Nat.add_1_r.
  destruct (Nat.ltb_spec bound (S (List.length lst))).
  - destruct lst as [|a lst]; cbn [List.length app tl] in *; [lia|].
    rewrite length_app. cbn [List.length]. lia.
  - rewrite length_app. cbn [List.length]. lia.
Qed.

End Reached.

Section DriveHistories.

Implicit Types (self : AffectiveCore.t).

Lemma reached_numeric s k : reached s k = true -> is_numeric (stimulus_of s k) = true.
Proof.
  unfold reached. intros H. rewrite forallb_forall in H. apply H.
  destruct k; simpl; tauto.
Qed.

Lemma step_drive_history self o (c : DriveType -> nat) :
  map fst (drives self) = all_drive_types ->
  Forall (fun entry =>
            List.length (DriveState.satisfaction_history (snd entry))
            = Nat.min (c (fst entry)) 100
            /\ last (DriveState.satisfaction_history (snd entry)) (initial_level (fst entry))
               = DriveState.current_level (snd entry))
         (drives self) ->
  Forall (fun entry =>
            List.length (DriveState.satisfaction_history (snd entry))
            = Nat.min (c (fst entry) + List.length (filter (updates_drive (fst entry)) [o])) 100
            /\ last (DriveState.satisfaction_history (snd entry)) (initial_level (fst entry))
               = DriveState.current_level (snd entry))
         (drives (step self o)).
Proof.
  intros Hk Hd.
  assert (Hsame : forall o', (forall k, updates_drive k o' = false) ->
            Forall (fun entry =>
              List.length (DriveState.satisfaction_history (snd entry))
              = Nat.min (c (fst entry) + List.length (filter (updates_drive (fst entry)) [o'])) 100
              /\ last (DriveState.satisfaction_history (snd entry)) (initial_level (fst entry))
                 = DriveState.current_level (snd entry))
            (drives self)).
  { intros o' Ho. eapply Forall_impl; [|exact Hd]. intros [k st] [Hl Hlast].
    cbn [filter fst]. rewrite Ho. cbn [List.length]. rewrite Nat.add_0_r. now split. }
  destruct o; cbn [step]; try (apply Hsame; reflexivity).
  - rewrite update_drives_reached by assumption. rewrite Forall_map.
    eapply Forall_impl; [|exact Hd]. intros [k st] [Hl Hlast].
    cbn [fst snd filter updates_drive] in *.
    destruct (reached external_stimuli k) eqn:Er;
      cbv beta; cbn [fst snd filter updates_drive]; rewrite ?Er; cbn [List.length].
    + pose proof (reached_numeric _ _ Er) as Hn. unfold updated. cbn [fst snd].
      destruct (stimulus_of external_stimuli k) as [f| |]; try discriminate.
      rewrite update_numeric. cbv zeta. cbn [fst DriveState.satisfaction_history
                                              DriveState.current_level].
      split.
      * rewrite append_bounded_length_eq by lia. rewrite Er. cbn [List.length]. lia.
      * apply append_bounded_last. lia.
    + rewrite Nat.add_0_r. now split.
  - destruct (update_interoception_frame self internal_changes) as (-> & _).
    apply Hsame. reflexivity.
  - destruct (advance_drives self) as (f & -> & _). rewrite Forall_map.
    eapply Forall_impl; [|exact (Hsame AdvanceDevelopmentalStage (fun _ => eq_refl))].
    now intros [k st].
Qed.

Lemma step_tension_mirror self o :
  last (map ar_tension (affective_history self)) 0%float = current_tension self ->
  last (map ar_tension (affective_history (step self o))) 0%float
  = current_tension (step self o).
Proof.
  intros H. destruct o; cbn [step]; try exact H.
  - destruct (snd (update_drives self external_stimuli delta_time)) as [total|e] eqn:E.
    + destruct (update_drives_ok_history _ _ _ _ E) as (-> & entry & _ & Ht & ->).
      rewrite map_append_bounded, Ht. apply append_bounded_last. lia.
    + now destruct (update_drives_raise_frame _ _ _ _ E) as (-> & ->).
  - now destruct (update_interoception_frame self internal_changes)
      as (_ & -> & _ & -> & _).
  - now destruct (advance_frame self) as (_ & -> & _ & ->).
Qed.

End DriveHistories.

(** X4. On a core with its seven drives, [update_drives] updates exactly
    the drives it reaches before the first stimulus that is not a number:
    a drive is updated with its own stimulus when its stimulus and the
    stimuli of all kinds before it in iteration order are numbers, and is
    left exactly as it was otherwise; the call returns when all seven are
    reached and raises otherwise. *)
Theorem update_drives_reach (self : AffectiveCore.t)
    (external_stimuli : dict pykey pyval) (delta_time : float) :
  map fst (drives self) = all_drive_types ->
  drives (fst (update_drives self external_stimuli delta_time)) =
  map (fun entry =>
         if reached external_stimuli (fst entry)
         then updated external_stimuli delta_time entry
         else entry)
      (drives self)
  /\ match snd (update_drives self external_stimuli delta_time) with
     | Ok _ => reached external_stimuli LUST = true
     | Raise _ => reached external_stimuli LUST = false
     end.
Proof.
  intros H. split; [now apply update_drives_reached|].
  exact (update_drives_returns self external_stimuli delta_time H).
Qed.

(** A call that reaches Seek and Avoid and stops at Rest. *)
Lemma update_drives_reach_witness :
  let stimuli := [(KDrive AVOID, PyFloat 0.4); (KDrive REST, PyNone)]%float in
  map fst (drives init) = all_drive_types
  /\ map (reached stimuli) all_drive_types = [true; true; false; false; false; false; false]
  /\ drives (fst (update_drives init stimuli 1%float)) =
     map (fun entry => if reached stimuli (fst entry) then updated stimuli 1%float entry
                       else entry)
         (drives init).
Proof.
  split; [reflexivity|]. split; [reflexivity|].
  exact (proj1 (update_drives_reach init
                  [(KDrive AVOID, PyFloat 0.4); (KDrive REST, PyNone)]%float 1%float
                  eq_refl)).
Defined.

(** X5. After every sequence of calls on a fresh core, each drive's history
    holds one entry per [update_drives] call that reached the drive, up to
    the last 100, and the drive's current level is the newest entry of its
    history (its initial level while the history is empty): nothing but a
    drive update ever changes a level. *)
Theorem drive_history_counts (ops : list op) :
  forall k st, In (k, st) (drives (run ops)) ->
    List.length (DriveState.satisfaction_history st)
    = Nat.min (List.length (filter (updates_drive k) ops)) 100
    /\ last (DriveState.satisfaction_history st) (initial_level k)
       = DriveState.current_level st.
Proof.
  assert (H : Forall (fun entry =>
            List.length (DriveState.satisfaction_history (snd entry))
            = Nat.min (List.length (filter (updates_drive (fst entry)) ops)) 100
            /\ last (DriveState.satisfaction_history (snd entry)) (initial_level (fst entry))
               = DriveState.current_level (snd entry))
         (drives (run ops))).
  { induction ops as [|o ops IH] using rev_ind.
    - repeat constructor.
    - rewrite run_snoc.
      pose proof (step_drive_history (run ops) o
                    (fun k => List.length (filter (updates_drive k) ops))
                    (proj1 (run_wf ops)) IH) as Hs.
      eapply Forall_impl; [|exact Hs]. intros [k st] Hk. cbn [fst snd] in *.
      now rewrite filter_app, length_app. }
  intros k st Hin. rewrite Forall_forall in H. exact (H _ Hin).
Qed.

(** The demonstration call, a call that fails at the stimulus of Rest, and a
    change of stage: the history of Care holds the one entry of the first
    call, and it is the level of Care. *)
Lemma drive_history_counts_witness :
  let ops := [UpdateDrives [(KDrive SEEK, PyFloat 0.3); (KDrive AVOID, PyFloat 0.4);
                            (KDrive REST, PyFloat (-0.2))] 1%float;
              UpdateDrives [(KDrive REST, PyNone)] 1%float;
              AdvanceDevelopmentalStage]%float in
  exists st,
    In (CARE, st) (drives (run ops))
    /\ List.length (DriveState.satisfaction_history st) = 1%nat
    /\ DriveState.satisfaction_history st = [DriveState.current_level st].
Proof.
  intros ops.
  exists (snd (nth 3 (drives (run ops)) (CARE, DriveState.mk CARE 0 0 0 []))).
  assert (Hin : In (CARE, snd (nth 3 (drives (run ops)) (CARE, DriveState.mk CARE 0 0 0 [])))
                   (drives (run ops))).
  { vm_compute. do 3 right. left. reflexivity. }
  split; [exact Hin|].
  split; [exact (proj1 (drive_history_counts ops CARE _ Hin))|].
  vm_compute. reflexivity.
Defined.

(** X6. After every sequence of calls on a fresh core, [current_tension]
    is the tension recorded in the newest snapshot of [affective_history]
    (0.0 while there is none): a failing [update_drives] and every other
    operation leave both as they were. *)
Theorem tension_is_newest_snapshot (ops : list op) :
  last (map ar_tension (affective_history (run ops))) 0%float = current_tension (run ops).
Proof.
  induction ops as [|o ops IH] using rev_ind; [reflexivity|].
  rewrite run_snoc. now apply step_tension_mirror.
Qed.

(** ** The dominant drive *)
Section Dominant.

Import FloatFacts.
Implicit Types (self : AffectiveCore.t).

Lemma scan_none_or_entry (l : list (DriveType * DriveState.t)) :
  (forallb (fun entry => negb (-1 <? DriveState.urgency (snd entry))%float) l = true
   /\ fold_left dominant_step l (None, (-1)%float) = (None, (-1)%float))
  \/ (forallb (fun entry => negb (-1 <? DriveState.urgency (snd entry))%float) l = false
      /\ exists k st,
           fold_left dominant_step l (None, (-1)%float) = (Some k, DriveState.urgency st)
           /\ In (k, st) l
           /\ (-1 <? DriveState.urgency st)%float = true).
Proof.
  induction l as [|[kx sx] l IH] using rev_ind; [left; split; reflexivity|].
  rewrite forallb_app, fold_left_app. cbn [forallb fold_left snd]. rewrite andb_true_r.
  destruct IH as [[Hall Hf] | [Hall (k & st & Hf & Hin & Hu)]]; rewrite Hall, Hf;
    cbn [dominant_step andb].
  - destruct (-1 <? DriveState.urgency sx)%float eqn:E; cbn [negb].
    + right. split; [reflexivity|]. exists kx, sx. repeat split; try assumption.
      apply in_or_app. right. now left.
    + left. split; reflexivity.
  - right. split; [reflexivity|].
    destruct (DriveState.urgency st <? DriveState.urgency sx)%float eqn:E.
    + exists kx, sx. repeat split.
      * apply in_or_app. right. now left.
      * eapply leb_ltb_trans; [apply ltb_leb, Hu | exact E].
    + exists k, st. repeat split; try assumption. apply in_or_app. now left.
Qed.

End Dominant.

(** X7. For any core whatever, [get_dominant_drive] returns the sentinel
    (None, -1.0) exactly when no drive has an urgency that compares above
    -1.0 (no drive at all, or only NaN urgencies or urgencies not above
    -1.0); otherwise it returns a kind that the core holds together with the
    urgency of that drive, which is above -1.0. *)
Theorem dominant_drive_sentinel (self : AffectiveCore.t) :
  let none_above :=
    forallb (fun entry => negb (-1 <? DriveState.urgency (snd entry))%float) (drives self) in
  (none_above = true -> get_dominant_drive self = (None, (-1)%float))
  /\ (none_above = false ->
      exists k st,
        get_dominant_drive self = (Some k, DriveState.urgency st)
        /\ In (k, st) (drives self)
        /\ (-1 <? DriveState.urgency st)%float = true)
  /\ (fst (get_dominant_drive self) = None <-> none_above = true).
Proof.
  intros none_above. subst none_above. unfold get_dominant_drive.
  destruct (scan_none_or_entry (drives self)) as [[Hall Hf] | [Hall (k & st & Hf & Hin & Hu)]];
    rewrite Hall, Hf.
  - split; [reflexivity|]. split; [discriminate|]. split; reflexivity.
  - split; [discriminate|]. split.
    + intros _. exists k, st. repeat split; assumption.
    + split; discriminate.
Qed.

(** A core all of whose stimuli were NaN has no urgency above -1.0. *)
Lemma dominant_drive_sentinel_witness :
  let stimuli := map (fun k => (KDrive k, PyFloat nan)) all_drive_types in
  let self := run [UpdateDrives stimuli 1%float] in
  forallb (fun entry => negb (-1 <? DriveState.urgency (snd entry))%float) (drives self)
  = true
  /\ get_dominant_drive self = (None, (-1)%float).
Proof.
  split; [vm_compute; reflexivity|].
  apply (proj1 (dominant_drive_sentinel
                  (run [UpdateDrives (map (fun k => (KDrive k, PyFloat nan)) all_drive_types)
                                     1%float]))).
  vm_compute; reflexivity.
Defined.

(** X8. On every core reached from a fresh one by calls free of NaN
    (no stimulus effect and no signal change is a NaN),
    [get_dominant_drive] returns a drive, never the sentinel, and the
    urgency it returns is a non-negative number that no drive's urgency
    exceeds. *)
Theorem dominant_drive_exists (ops : list op) :
  forallb nan_free ops = true ->
  exists k st,
    get_dominant_drive (run ops) = (Some k, DriveState.urgency st)
    /\ In (k, st) (drives (run ops))
    /\ (0 <=? DriveState.urgency st)%float = true
    /\ forall k' st', In (k', st') (drives (run ops)) ->
         (DriveState.urgency st' <=? DriveState.urgency st)%float = true.
Proof.
  intros H.
  pose proof (run_urgency_above_sentinel ops H) as Habove.
  destruct (run_num_inv ops H) as [Hd _]. rewrite Forall_forall in Hd.
  assert (Hne : drives (run ops) <> []).
  { intros E. pose proof (proj1 (run_wf ops)) as Hk. rewrite E in Hk. discriminate. }
  destruct (scan_first_max (drives (run ops)) Habove Hne)
    as (pre & k & st & post & El & Ef & Hpre & Hpost).
  assert (Hin : In (k, st) (drives (run ops))).
  { rewrite El. apply in_or_app. right. now left. }
  exists k, st. split; [exact Ef|]. split; [exact Hin|]. split.
  - now destruct (Hd _ Hin) as (_ & _ & Hu).
  - intros k' st' Hin'. rewrite El in Hin'. apply in_app_or in Hin'.
    destruct Hin' as [Hp | [Heq | Hp]].
    + apply FloatFacts.ltb_leb. exact (Hpre _ Hp).
    + inversion Heq; subst. apply FloatFacts.leb_refl.
      destruct (Hd _ Hin) as (_ & _ & Hu). eapply FloatFacts.leb_not_nan_r, Hu.
    + exact (Hpost _ Hp).
Qed.

(** The demonstration call of the program is free of NaN. *)
Lemma dominant_drive_exists_witness :
  let ops := [UpdateDrives [(KDrive SEEK, PyFloat 0.3); (KDrive AVOID, PyFloat 0.4);
                            (KDrive REST, PyFloat (-0.2))] 1%float]%float in
  forallb nan_free ops = true
  /\ get_dominant_drive (run ops) = (Some AVOID, 0.57999999999999996%float)
  /\ exists k st,
       get_dominant_drive (run ops) = (Some k, DriveState.urgency st)
       /\ In (k, st) (drives (run ops))
       /\ (0 <=? DriveState.urgency st)%float = true
       /\ forall k' st', In (k', st') (drives (run ops)) ->
            (DriveState.urgency st' <=? DriveState.urgency st)%float = true.
Proof.
  split; [vm_compute; reflexivity|]. split; [vm_compute; reflexivity|].
  apply (dominant_drive_exists
           [UpdateDrives [(KDrive SEEK, PyFloat 0.3); (KDrive AVOID, PyFloat 0.4);
                          (KDrive REST, PyFloat (-0.2))] 1%float]%float).
  vm_compute; reflexivity.
Defined.

(** ** Conflict *)

(** X9. The opposition of two kinds is symmetric, no kind is opposed to
    itself, a kind has at most one opposite, and Lust has none. *)
Theorem drives_opposed_pairing :
  (forall a b, _drives_opposed a b = _drives_opposed b a)
  /\ (forall a, _drives_opposed a a = false)
  /\ (forall a b c, _drives_opposed a b = true -> _drives_opposed a c = true -> b = c)
  /\ (forall a, _drives_opposed LUST a = false).
Proof.
  split; [|split; [|split]].
  - intros a b. destruct a, b; reflexivity.
  - intros a. destruct a; reflexivity.
  - intros a b c. destruct a, b; simpl; try discriminate; destruct c; simpl;
      try discriminate; reflexivity.
  - intros a. destruct a; reflexivity.
Qed.

(** X10. On a core with its seven drives the conflict is exactly 0.0 unless
    both members of at least one of the pairs Seek/Avoid, Rest/Play,
    Care/Rage have urgency above 0.3: urgent drives that are not opposed to
    each other (Lust among them) produce no conflict, however many they
    are. *)
Theorem conflict_needs_opposed_pair (self : AffectiveCore.t) :
  map fst (drives self) = all_drive_types ->
  is_urgent self SEEK && is_urgent self AVOID = false ->
  is_urgent self REST && is_urgent self PLAY = false ->
  is_urgent self CARE && is_urgent self RAGE = false ->
  compute_affective_conflict self = 0%float.
Proof.
  intros Hk H1 H2 H3. rewrite (conflict_matches_spec self Hk). unfold conflict_spec.
  destruct (List.length (filter (is_urgent self) all_drive_types) <? 2)%nat; [reflexivity|].
  cbn [all_drive_types unordered_pairs map app fold_left unordered_opposed andb].
  now rewrite H1, H2, H3.
Qed.

(** Seek, Rest, Care and Lust urgent together: four urgent drives, no
    opposed pair, no conflict. *)
Lemma conflict_needs_opposed_pair_witness :
  let self :=
    run [UpdateDrives [(KDrive SEEK, PyFloat 1); (KDrive REST, PyFloat (-1));
                       (KDrive CARE, PyFloat 1); (KDrive LUST, PyFloat 1)]%float 1%float] in
  map fst (drives self) = all_drive_types
  /\ filter (is_urgent self) all_drive_types = [SEEK; REST; CARE; LUST]
  /\ compute_affective_conflict self = 0%float.
Proof.
  split; [reflexivity|]. split; [vm_compute; reflexivity|].
  apply (conflict_needs_opposed_pair
           (run [UpdateDrives [(KDrive SEEK, PyFloat 1); (KDrive REST, PyFloat (-1));
                               (KDrive CARE, PyFloat 1); (KDrive LUST, PyFloat 1)]%float
                              1%float]));
    vm_compute; reflexivity.
Defined.

(** ** Interoception updates *)
Section Interoception.

Implicit Types (self : AffectiveCore.t).

Lemma signal_of_update_signal sigs nm c q :
  signal_of (update_signal sigs nm c) q =
  if String.eqb q nm
  then option_map
         (fun sg => with_value sg (clip (InteroceptiveSignal.current_value sg + c) 0 1))
         (signal_of sigs q)
  else signal_of sigs q.
Proof.
  induction sigs as [|[n0 sg] rest IH]; cbn [update_signal signal_of].
  - now destruct (String.eqb q nm).
  - destruct (String.eqb_spec n0 nm) as [->|Hn]; cbn [signal_of].
    + destruct (String.eqb_spec nm q) as [->|Hq].
      * now rewrite String.eqb_refl.
      * destruct (String.eqb_spec q nm); [congruence | reflexivity].
    + destruct (String.eqb_spec n0 q) as [->|Hq].
      * destruct (String.eqb_spec q nm); [congruence | reflexivity].
      * exact IH.
Qed.

Lemma has_signal_signal_of sigs nm :
  has_signal sigs (KStr nm) = false -> signal_of sigs nm = None.
Proof.
  cbn [has_signal]. induction sigs as [|[n0 sg] rest IH]; cbn [existsb signal_of];
    [reflexivity|].
  intros H. apply orb_false_iff in H. destruct H as [H1 H2]. rewrite H1. now apply IH.
Qed.

Lemma update_interoception_loop_app a : forall sigs b,
  update_interoception_loop sigs (a ++ b) =
  match update_interoception_loop sigs a with
  | (sigs1, Ok _) => update_interoception_loop sigs1 b
  | (sigs1, Raise e) => (sigs1, Raise e)
  end.
Proof.
  induction a as [|[k v] rest IH]; intros sigs b; [reflexivity|].
  cbn [app update_interoception_loop].
  destruct (has_signal sigs k); [|apply IH].
  destruct k as [d|nm]; [reflexivity|].
  destruct v; try reflexivity. apply IH.
Qed.

End Interoception.

(** X11. [update_interoception] with a single float change for a name
    replaces the value of the signal of that name by
    clip(value + change, 0, 1) and leaves every other signal, and every
    other field of that signal, as it was; for a name the core does not
    hold it changes nothing; in both cases it returns without raising. *)
Theorem update_interoception_single (self : AffectiveCore.t) (nm : string) (change : float) :
  let r := update_interoception self [(KStr nm, PyFloat change)] in
  snd r = Ok tt
  /\ (forall q,
        signal_of (interoceptive_signals (fst r)) q =
        if String.eqb q nm
        then option_map
               (fun sg =>
                  with_value sg (clip (InteroceptiveSignal.current_value sg + change) 0 1))
               (signal_of (interoceptive_signals self) q)
        else signal_of (interoceptive_signals self) q)
  /\ (signal_of (interoceptive_signals self) nm = None -> fst r = self).
Proof.
  intros r. subst r. unfold update_interoception.
  cbn [update_interoception_loop].
  destruct (has_signal (interoceptive_signals self) (KStr nm)) eqn:Eh; cbn [fst snd].
  - split; [reflexivity|]. split.
    + intros q. apply signal_of_update_signal.
    + intros Hnone. exfalso. clear -Eh Hnone. cbn [has_signal] in Eh.
      induction (interoceptive_signals self) as [|[n0 sg] rest IH];
        cbn [existsb signal_of] in *; [discriminate|].
      destruct (String.eqb n0 nm); [discriminate|]. now apply IH.
  - split; [reflexivity|]. split.
    + intros q. destruct (String.eqb_spec q nm) as [->|]; [|reflexivity].
      cbn [set_interoceptive_signals interoceptive_signals].
      now rewrite (has_signal_signal_of _ _ Eh).
    + intros _. now destruct self.
Qed.

(** X12. [update_interoception] applies the entries of its mapping one
    after another in order: a mapping that is the concatenation of two is
    applied as the first and then, if that returned, the second on the core
    the first left; when the first raises, the second is not applied at
    all. *)
Theorem update_interoception_sequential (self : AffectiveCore.t)
    (changes1 changes2 : dict pykey pyval) :
  update_interoception self (changes1 ++ changes2) =
  match update_interoception self changes1 with
  | (self1, Ok _) => update_interoception self1 changes2
  | (self1, Raise e) => (self1, Raise e)
  end.
Proof.
  unfold update_interoception. rewrite update_interoception_loop_app.
  destruct (update_interoception_loop (interoceptive_signals self) changes1)
    as [sigs1 [u|e]]; [|reflexivity].
  cbn [set_interoceptive_signals interoceptive_signals].
  now destruct (update_interoception_loop sigs1 changes2).
Qed.

(** ** Missing stimuli *)
Section Missing.

Lemma dict_get_absent (s : dict pykey pyval) k d :
  existsb (fun entry => pykey_eqb (fst entry) k) s = false ->
  dict_get s k d = d.
Proof.
  induction s as [|[k' v] rest IH]; cbn [existsb dict_get fst]; [reflexivity|].
  intros H. apply orb_false_iff in H. destruct H as [H1 H2]. rewrite H1. now apply IH.
Qed.

Lemma dict_get_app (s s' : dict pykey pyval) k d :
  dict_get (s ++ s') k d = dict_get s k (dict_get s' k d).
Proof.
  induction s as [|[k' v] rest IH]; cbn [app dict_get]; [reflexivity|].
  destruct (pykey_eqb k' k); [reflexivity | exact IH].
Qed.

Lemma DriveType_eqb_refl k : DriveType_eqb k k = true.
Proof. now destruct k. Qed.

End Missing.

(** X13. A kind that the stimuli mapping omits is treated exactly as a
    kind given the stimulus 0.0: adding the entry (kind, 0.0) for an omitted
    kind changes neither the core the call leaves nor what it returns.  In
    particular the empty mapping acts as the mapping that gives 0.0 to all
    seven kinds. *)
Theorem omitted_stimulus_is_zero (self : AffectiveCore.t)
    (external_stimuli : dict pykey pyval) (delta_time : float) (k : DriveType) :
  existsb (fun entry => pykey_eqb (fst entry) (KDrive k)) external_stimuli = false ->
  update_drives self (external_stimuli ++ [(KDrive k, PyFloat 0)]) delta_time =
  update_drives self external_stimuli delta_time
  /\ update_drives self ((KDrive k, PyFloat 0) :: external_stimuli) delta_time =
     update_drives self external_stimuli delta_time.
Proof.
  intros H. split; apply update_drives_ext; intros k'; unfold stimulus_of.
  - rewrite dict_get_app. cbn [dict_get pykey_eqb].
    destruct (DriveType_eqb k k') eqn:E; [|reflexivity].
    apply DriveType_eqb_eq in E. now subst k'.
  - cbn [dict_get pykey_eqb].
    destruct (DriveType_eqb k k') eqn:E; [|reflexivity].
    apply DriveType_eqb_eq in E. subst k'. now rewrite (dict_get_absent _ _ _ H).
Qed.

(** The demonstration mapping omits Care. *)
Lemma omitted_stimulus_is_zero_witness :
  let stimuli := [(KDrive SEEK, PyFloat 0.3); (KDrive AVOID, PyFloat 0.4);
                  (KDrive REST, PyFloat (-0.2))]%float in
  existsb (fun entry => pykey_eqb (fst entry) (KDrive CARE)) stimuli = false
  /\ update_drives init (stimuli ++ [(KDrive CARE, PyFloat 0)]) 1%float =
     update_drives init stimuli 1%float.
Proof.
  split; [reflexivity|].
  exact (proj1 (omitted_stimulus_is_zero init
                  [(KDrive SEEK, PyFloat 0.3); (KDrive AVOID, PyFloat 0.4);
                   (KDrive REST, PyFloat (-0.2))]%float 1%float CARE eq_refl)).
Defined.

(** ** What the histories record *)
Section Records.

Implicit Types (self : AffectiveCore.t).

Lemma in_append_bounded {A : Type} bound (lst : list A) x y :
  In y (append_bounded bound lst x) -> In y lst \/ y = x.
Proof.
  unfold append_bounded.
  destruct (bound <? List.length (lst ++ [x]))%nat; intros H.
  - destruct lst as [|a lst]; cbn [app tl] in H; [destruct H|].
    apply in_app_or in H. destruct H as [H | [<- | []]]; [left; now right | now right].
  - apply in_app_or in H. destruct H as [H | [<- | []]]; [now left | now right].
Qed.

Lemma summary_well_keyed self :
  wf self -> (1 <= developmental_stage self <= 3)%Z ->
  well_keyed_summary (get_affective_summary self).
Proof.
  intros [Hd Hs] Hstage. unfold get_affective_summary.
  destruct (get_dominant_drive self) as [dominant urgency].
  unfold well_keyed_summary. cbn [sm_drive_states sm_interoceptive_states sm_developmental_stage].
  rewrite !map_map. repeat split; try lia.
  - rewrite <- Hd, map_map. apply map_ext. now intros [k st].
  - rewrite <- Hs. apply map_ext. now intros [nm sg].
Qed.

Lemma step_records self o :
  wf self -> (1 <= developmental_stage self <= 3)%Z ->
  Forall well_keyed_record (affective_history self) ->
  Forall (fun d => well_keyed_summary (dr_affective_state d)) (decision_history self) ->
  Forall well_keyed_record (affective_history (step self o))
  /\ Forall (fun d => well_keyed_summary (dr_affective_state d))
            (decision_history (step self o)).
Proof.
  intros Hwf Hstage Ha Hd. destruct o; cbn [step]; try (split; assumption).
  - destruct (update_drives_frame self external_stimuli delta_time) as (Es & -> & _).
    split; [|assumption].
    destruct (step_wf self (UpdateDrives external_stimuli delta_time) Hwf) as [Hk' Hs'].
    cbn [step] in Hk', Hs'.
    unfold update_drives in *.
    destruct (update_drives_loop (drives self) external_stimuli delta_time 0)
      as [ds [total|e]]; cbn [fst] in *; [|assumption].
    cbn [set_affective_history affective_history set_current_tension set_drives
         drives interoceptive_signals] in *.
    apply Forall_forall. intros entry Hin. apply in_append_bounded in Hin.
    destruct Hin as [Hin | ->]; [rewrite Forall_forall in Ha; now apply Ha|].
    split; cbn [ar_drive_states ar_interoceptive_states]; rewrite map_map.
    + rewrite <- Hk', map_map. apply map_ext. now intros [k st].
    + rewrite <- Hs'. apply map_ext. now intros [nm sg].
  - destruct (update_interoception_frame self internal_changes) as (_ & -> & -> & _).
    split; assumption.
  - split; [assumption|]. cbn [record_decision set_decision_history decision_history].
    apply Forall_forall. intros d Hin. apply in_append_bounded in Hin.
    destruct Hin as [Hin | ->]; [rewrite Forall_forall in Hd; now apply Hd|].
    cbn [dr_affective_state]. now apply summary_well_keyed.
  - destruct (advance_frame self) as (_ & -> & -> & _). split; assumption.
Qed.

End Records.

(** X14. No two drive kinds share a name and no two signals share one, so
    the dictionaries that [update_drives] and [get_affective_summary] build
    by name lose no entry: after every sequence of calls on a fresh core,
    every snapshot in [affective_history] lists the seven drives and the
    four signals under their names, in order, and so does the summary kept
    with every recorded decision, whose stage is between 1 and 3. *)
Theorem records_keep_all_names (ops : list op) :
  NoDup (map name all_drive_types)
  /\ NoDup signal_names
  /\ (forall entry, In entry (affective_history (run ops)) ->
        map fst (ar_drive_states entry) = map name all_drive_types
        /\ map fst (ar_interoceptive_states entry) = signal_names)
  /\ (forall d, In d (decision_history (run ops)) ->
        map fst (sm_drive_states (dr_affective_state d)) = map name all_drive_types
        /\ map fst (sm_interoceptive_states (dr_affective_state d)) = signal_names
        /\ (1 <= sm_developmental_stage (dr_affective_state d) <= 3)%Z).
Proof.
  split; [|split].
  - cbn. repeat constructor; cbn; intuition discriminate.
  - unfold signal_names. repeat constructor; cbn; intuition discriminate.
  - assert (H : Forall well_keyed_record (affective_history (run ops))
                /\ Forall (fun d => well_keyed_summary (dr_affective_state d))
                          (decision_history (run ops))).
    { induction ops as [|o ops IH] using rev_ind; [split; constructor|].
      destruct IH as [Ha Hd]. rewrite run_snoc.
      apply step_records; try assumption; [apply run_wf|].
      destruct (stage_counts_advances_range ops). lia. }
    destruct H as [Ha Hd]. rewrite Forall_forall in Ha, Hd. split.
    + intros entry Hin. exact (Ha _ Hin).
    + intros d Hin. exact (Hd _ Hin).
Qed.

(** ** Queries after a change of stage *)
Section StaleUrgency.

Implicit Types (self : AffectiveCore.t).

Lemma dominant_scan_map (g : DriveType -> DriveState.t -> DriveState.t) :
  (forall k st, DriveState.urgency (g k st) = DriveState.urgency st) ->
  forall ds acc,
    fold_left dominant_step (map (fun '(k, st) => (k, g k st)) ds) acc =
    fold_left dominant_step ds acc.
Proof.
  intros Hg. induction ds as [|[k st] rest IH]; intros [m h]; [reflexivity|].
  cbn [map fold_left dominant_step]. now rewrite Hg, IH.
Qed.

Lemma conflict_inner_map (g : DriveType -> DriveState.t -> DriveState.t) d1 u1 :
  (forall k st, DriveState.urgency (g k st) = DriveState.urgency st) ->
  forall l acc,
    fold_left
      (fun conflict '(drive2, state2) =>
         if _drives_opposed d1 drive2
         then (conflict + u1 * DriveState.urgency state2)%float else conflict)
      (map (fun '(k, st) => (k, g k st)) l) acc =
    fold_left
      (fun conflict '(drive2, state2) =>
         if _drives_opposed d1 drive2
         then (conflict + u1 * DriveState.urgency state2)%float else conflict)
      l acc.
Proof.
  intros Hg. induction l as [|[k st] rest IH]; intros acc; [reflexivity|].
  cbn [map fold_left]. now rewrite Hg, IH.
Qed.

Lemma conflict_loop_map (g : DriveType -> DriveState.t -> DriveState.t) :
  (forall k st, DriveState.urgency (g k st) = DriveState.urgency st) ->
  forall l acc,
    conflict_loop (map (fun '(k, st) => (k, g k st)) l) acc = conflict_loop l acc.
Proof.
  intros Hg. induction l as [|[k st] rest IH]; intros acc; [reflexivity|].
  cbn [map conflict_loop]. rewrite Hg, IH.
  now rewrite (conflict_inner_map g k (DriveState.urgency st) Hg).
Qed.

Lemma urgent_filter_map (g : DriveType -> DriveState.t -> DriveState.t) :
  (forall k st, DriveState.urgency (g k st) = DriveState.urgency st) ->
  forall l,
    filter (fun '(_, drive_state) => (0.3 <? DriveState.urgency drive_state)%float)
           (map (fun '(k, st) => (k, g k st)) l) =
    map (fun '(k, st) => (k, g k st))
        (filter (fun '(_, drive_state) => (0.3 <? DriveState.urgency drive_state)%float) l).
Proof.
  intros Hg. induction l as [|[k st] rest IH]; [reflexivity|].
  cbn [map filter]. rewrite Hg, IH.
  now destruct (0.3 <? DriveState.urgency st)%float.
Qed.

End StaleUrgency.

(** X20. [advance_developmental_stage] moves optimal levels but recomputes
    no urgency: every drive keeps its level, urgency and history, so the
    dominant drive and the affective conflict are the same right after the
    call as before it, whatever the new optimal levels are. *)
Theorem advance_keeps_urgencies (self : AffectiveCore.t) :
  let self' := advance_developmental_stage self in
  map (fun entry => (fst entry, DriveState.current_level (snd entry),
                     DriveState.urgency (snd entry),
                     DriveState.satisfaction_history (snd entry)))
      (drives self')
  = map (fun entry => (fst entry, DriveState.current_level (snd entry),
                       DriveState.urgency (snd entry),
                       DriveState.satisfaction_history (snd entry)))
        (drives self)
  /\ get_dominant_drive self' = get_dominant_drive self
  /\ compute_affective_conflict self' = compute_affective_conflict self.
Proof.
  intros self'. subst self'.
  destruct (advance_drives self) as (f & E & _).
  set (g := fun (k : DriveType) (st : DriveState.t) =>
              DriveState.mk (DriveState.drive_type st) (DriveState.current_level st)
                            (f k (DriveState.optimal_level st)) (DriveState.urgency st)
                            (DriveState.satisfaction_history st)).
  assert (E' : drives (advance_developmental_stage self) =
               map (fun '(k, st) => (k, g k st)) (drives self)) by exact E.
  assert (Hg : forall k st, DriveState.urgency (g k st) = DriveState.urgency st)
    by reflexivity.
  split; [|split].
  - rewrite E', map_map. apply map_ext. now intros [k st].
  - unfold get_dominant_drive. rewrite E'. now apply dominant_scan_map.
  - unfold compute_affective_conflict. rewrite E'.
    rewrite (urgent_filter_map g Hg), length_map.
    destruct (List.length _ <? 2)%nat; [reflexivity|].
    now apply conflict_loop_map.
Qed.

(** * Signs of floating-point results *)
Module FloatSigns.

Import FloatDefs FloatFacts.
Local Open Scope Z_scope.

Lemma nn_leb x : (0 <=? x)%float = true <-> nn (Prim2SF x).
Proof.
  rewrite leb_spec. change (Prim2SF 0) with (S754_zero false).
  destruct (Prim2SF x) as [s|s| |s m e]; try destruct s; cbn; split; intros H;
    try reflexivity; try exact I; try discriminate; destruct H.
Qed.

Lemma binary_round_aux_nn m e l :
  0 <= m -> nn (binary_round_aux prec emax false m e l).
Proof.
  intros Hm. unfold binary_round_aux.
  pose proof (shr_fexp_spec m e l Hm) as H1.
  destruct (shr_fexp prec emax m e l) as [r1 e1]. simpl in H1.
  destruct H1 as (H1 & _).
  pose proof (round_nearest_even_range (shr_m r1) (loc_of_shr_record r1) H1) as H2.
  pose proof (shr_fexp_spec (round_nearest_even (shr_m r1) (loc_of_shr_record r1)) e1
                loc_Exact ltac:(lia)) as H3.
  destruct (shr_fexp prec emax _ e1 loc_Exact) as [r3 e3]. simpl in H3.
  destruct H3 as (H3 & _).
  destruct (shr_m r3); try lia; [exact I|].
  destruct (e3 <=? emax - prec); exact I.
Qed.

Lemma binary_normalize_nn z e : 0 <= z -> nn (binary_normalize prec emax z e false).
Proof.
  destruct z as [|p|p]; intros Hz; cbn [binary_normalize]; [exact I | | lia].
  unfold binary_round. destruct (shl_align p e _) as [mz ez].
  apply binary_round_aux_nn. lia.
Qed.

Lemma SFmul_nn a b x y :
  nn x -> nn y -> bnd a x -> bnd b y -> nn (SF64mul x y).
Proof.
  destruct x as [[]|[]| |[] mx ex], y as [[]|[]| |[] my ey];
    unfold SF64mul; cbn [nn bnd SFmul xorb]; try tauto; intros _ _ _ _;
    apply binary_round_aux_nn; lia.
Qed.

Lemma SFadd_nn x y : nn x -> nn y -> nn (SF64add x y).
Proof.
  destruct x as [[]|[]| |[] mx ex], y as [[]|[]| |[] my ey];
    unfold SF64add; cbn [nn SFadd]; try tauto; intros _ _.
  apply binary_normalize_nn. cbn [cond_Zopp]. lia.
Qed.

Lemma SFabs_nn x : x <> S754_nan -> nn (SFabs x).
Proof. destruct x; cbn; intros H; try exact I. congruence. Qed.

(** Subtracting the smaller of two valid non-negative values from the
    larger gives a non-negative value. *)
Lemma size_full_lower p : Z.pos (digits2_pos p) = 53 -> 2 ^ 52 <= Z.pos p.
Proof.
  rewrite digits2_pos_size. intros H.
  pose proof (Pos.size_le p) as Hs. apply Pos2Z.pos_le_pos in Hs.
  rewrite Pos2Z.inj_pow, H in Hs.
  change (2 ^ 53) with (2 * 2 ^ 52) in Hs. lia.
Qed.

Lemma SFsub_ordered_nn x y :
  valid_binary x = true -> valid_binary y = true ->
  nn x -> nn y -> x <> S754_infinity false -> y <> S754_infinity false ->
  SFltb x y = true -> nn (SF64sub y x).
Proof.
  destruct x as [[]|[]| |[] mx ex], y as [[]|[]| |[] my ey];
    unfold SF64sub; cbn [nn SFsub negb]; try tauto;
    intros Vx Vy Hx Hy Ix Iy Hlt; try congruence; try exact I; try discriminate.
  unfold valid_binary, bounded, canonical_mantissa in Vx, Vy.
  apply andb_true_iff in Vx, Vy. destruct Vx as [Cx _], Vy as [Cy _].
  apply Z.eqb_eq in Cx, Cy.
  unfold fexp, SpecFloat.emin, prec, emax in Cx, Cy.
  apply binary_normalize_nn. cbn [cond_Zopp].
  unfold SFltb, SFcompare in Hlt.
  pose proof (Zdigits2_gt (Z.pos mx) ltac:(lia)) as Gx.
  change (Zdigits2 (Z.pos mx)) with (Z.pos (digits2_pos mx)) in Gx.
  unfold shl_align.
  destruct (Z.compare_spec ex ey) as [E|E|E]; try discriminate.
  - subst ey. rewrite Z.min_id, Z.sub_diag. cbn [fst].
    change (Pos.compare_cont Eq mx my) with (Pos.compare mx my) in Hlt.
    destruct (Pos.compare_spec mx my); try discriminate. lia.
  - rewrite Z.min_r by lia. rewrite Z.sub_diag.
    destruct (ex - ey) as [|d|d] eqn:Ed; try lia. cbn [fst]. rewrite iter_xO.
    assert (Hfull : Z.pos (digits2_pos my) = 53) by lia.
    pose proof (size_full_lower my Hfull) as Ly.
    assert (Hd : 2 <= 2 ^ Z.pos d).
    { change 2 with (2 ^ 1) at 1. apply Z.pow_le_mono_r; lia. }
    assert (Hx53 : Z.pos mx < 2 ^ 53).
    { eapply Z.lt_le_trans; [exact Gx|]. apply Z.pow_le_mono_r; lia. }
    change (2 ^ 53) with (2 * 2 ^ 52) in Hx53. nia.
Qed.

End FloatSigns.

(** ** Deviation and tension are never negative *)
Section Signs.

Import FloatDefs FloatFacts FloatSigns.
Implicit Types (self : AffectiveCore.t) (sg : InteroceptiveSignal.t).

Lemma leb_ltb_false x y : (x <=? y)%float = true -> (y <? x)%float = false.
Proof.
  intros H. destruct (y <? x)%float eqn:E; [|reflexivity].
  pose proof (leb_ltb_trans _ _ _ H E) as Hxx.
  now rewrite (ltb_asym _ _ Hxx) in Hxx.
Qed.

Lemma nan_leb_l x y : is_nan x = true -> (x <=? y)%float = false.
Proof.
  intros H. destruct (x <=? y)%float eqn:E; [|reflexivity].
  apply leb_not_nan_l in E. congruence.
Qed.

Lemma nan_ltb_l x y : is_nan x = true -> (x <? y)%float = false.
Proof.
  intros H. destruct (x <? y)%float eqn:E; [|reflexivity].
  apply ltb_not_nan_l in E. congruence.
Qed.

Lemma nan_ltb_r x y : is_nan y = true -> (x <? y)%float = false.
Proof.
  intros H. destruct (x <? y)%float eqn:E; [|reflexivity].
  apply ltb_not_nan_r in E. congruence.
Qed.

Lemma in01_nn x : in01 x = true -> nn (Prim2SF x).
Proof.
  unfold in01. intros H. apply andb_true_iff in H. now apply nn_leb.
Qed.

Lemma in01_not_inf x : in01 x = true -> Prim2SF x <> S754_infinity false.
Proof.
  intros H E. apply in01_bnd in H. rewrite E in H. exact H.
Qed.

Lemma sub_ordered_nn x y :
  in01 x = true -> in01 y = true -> (x <? y)%float = true -> nn (Prim2SF (y - x)).
Proof.
  intros Hx Hy Hlt. rewrite sub_spec. rewrite ltb_spec in Hlt.
  apply SFsub_ordered_nn; try apply Prim2SF_valid; try assumption;
    auto using in01_nn, in01_not_inf.
Qed.

Lemma deviation_sign sg :
  in01 (InteroceptiveSignal.current_value sg) = true ->
  in01 (fst (InteroceptiveSignal.optimal_range sg)) = true ->
  in01 (snd (InteroceptiveSignal.optimal_range sg)) = true ->
  nn (Prim2SF (InteroceptiveSignal.deviation sg))
  /\ bnd 3 (Prim2SF (InteroceptiveSignal.deviation sg)).
Proof.
  unfold InteroceptiveSignal.deviation.
  destruct (InteroceptiveSignal.optimal_range sg) as [low high]. cbn [fst snd].
  intros Hv Hl Hh.
  destruct (InteroceptiveSignal.current_value sg <? low)%float eqn:E1.
  - split; [now apply sub_ordered_nn | now apply sub_in01_bnd].
  - destruct (high <? InteroceptiveSignal.current_value sg)%float eqn:E2.
    + split; [now apply sub_ordered_nn | now apply sub_in01_bnd].
    + split; exact I.
Qed.

Lemma square_tension_nn level optimal :
  in01 level = true -> in01 optimal = true ->
  nn (Prim2SF (abs (level - optimal) * abs (level - optimal))).
Proof.
  intros Hl Ho. pose proof (sub_in01_bnd _ _ Hl Ho) as Hb.
  rewrite mul_spec, abs_spec.
  assert (Hn : nn (SFabs (Prim2SF (level - optimal))))
    by (apply SFabs_nn; eapply bnd_not_nan; eassumption).
  assert (Hb' : bnd 3 (SFabs (Prim2SF (level - optimal))))
    by (destruct (Prim2SF (level - optimal)); exact Hb).
  eapply SFmul_nn; eassumption.
Qed.

Lemma update_drives_loop_nn s dt :
  (forall k, effect_ok s dt k = true) ->
  forall ds total,
    Forall (fun entry => drive_num (snd entry)) ds ->
    nn (Prim2SF total) ->
    match snd (update_drives_loop ds s dt total) with
    | Ok t => nn (Prim2SF t)
    | Raise _ => True
    end.
Proof.
  intros Hok. induction ds as [|[k st] rest IH]; intros total Hd Ht; [exact Ht|].
  rewrite update_drives_loop_cons. inversion Hd as [|? ? Hst Hrest]; subst.
  destruct (is_numeric (stimulus_of s k)) eqn:En; [|exact I].
  cbv zeta. cbn [snd]. apply IH; [assumption|].
  specialize (Hok k). unfold effect_ok in Hok. unfold updated. cbn [fst snd].
  destruct (stimulus_of s k) as [f| |]; try discriminate.
  apply negb_true_iff in Hok.
  destruct (update_drive_num st f dt Hst Hok) as (Hl & Ho & _).
  rewrite update_numeric in *. cbn [fst] in *. cbv zeta in *.
  unfold DriveState.tension.
  cbn [DriveState.current_level DriveState.optimal_level DriveState.urgency] in *.
  rewrite add_spec. apply SFadd_nn; [assumption|].
  now apply square_tension_nn.
Qed.

Lemma interoceptive_tension_nn self :
  Forall (fun entry => in01 (InteroceptiveSignal.current_value (snd entry)) = true)
         (interoceptive_signals self) ->
  forallb signal_constants_ok (interoceptive_signals self) = true ->
  nn (Prim2SF (_compute_interoceptive_tension self)).
Proof.
  unfold _compute_interoceptive_tension.
  assert (H0 : nn (Prim2SF 0%float)) by exact I. revert H0. generalize 0%float.
  induction (interoceptive_signals self) as [|[nm sg] rest IH]; intros acc Hacc Hv Hc;
    [exact Hacc|].
  inversion Hv as [|? ? Hsg Hrest]; subst.
  cbn [forallb] in Hc. apply andb_true_iff in Hc. destruct Hc as [Hsgc Hc].
  unfold signal_constants_ok in Hsgc. cbn [snd] in Hsgc, Hsg.
  apply andb_true_iff in Hsgc. destruct Hsgc as [Hsgc Hw].
  apply andb_true_iff in Hsgc. destruct Hsgc as [Hlow Hhigh].
  cbn [fold_left]. apply IH; try assumption.
  destruct (negb (InteroceptiveSignal.is_optimal sg)); [|exact Hacc].
  destruct (deviation_sign sg Hsg Hlow Hhigh) as [Hn Hb].
  rewrite add_spec. apply SFadd_nn; [assumption|].
  rewrite mul_spec. eapply SFmul_nn; try eassumption;
    [now apply in01_nn | now apply in01_bnd].
Qed.

Lemma constants_ok_preserved (sigs sigs' : dict string InteroceptiveSignal.t) :
  map signal_constants sigs' = map signal_constants sigs ->
  forallb signal_constants_ok sigs = true -> forallb signal_constants_ok sigs' = true.
Proof.
  revert sigs'. induction sigs as [|[nm sg] rest IH]; intros [|[nm' sg'] rest'] E H;
    try discriminate; [reflexivity|].
  cbn [map] in E. injection E as E1 E2 E3 E4 E5.
  cbn [forallb] in *. apply andb_true_iff in H. destruct H as [H1 H2].
  rewrite (IH _ E5 H2), andb_true_r.
  unfold signal_constants_ok in *. cbn [snd] in *. now rewrite E3, E4.
Qed.

End Signs.

(** X15. For any signal, if [is_optimal()] holds then [deviation()] is
    exactly 0.0; a signal whose value is NaN is not optimal and yet has
    deviation 0.0; and for a value and a range inside [0, 1] the deviation
    is never negative and never NaN. *)
Theorem deviation_of_signal (sg : InteroceptiveSignal.t) :
  (InteroceptiveSignal.is_optimal sg = true -> InteroceptiveSignal.deviation sg = 0%float)
  /\ (is_nan (InteroceptiveSignal.current_value sg) = true ->
      InteroceptiveSignal.is_optimal sg = false
      /\ InteroceptiveSignal.deviation sg = 0%float)
  /\ (in01 (InteroceptiveSignal.current_value sg) = true ->
      in01 (fst (InteroceptiveSignal.optimal_range sg)) = true ->
      in01 (snd (InteroceptiveSignal.optimal_range sg)) = true ->
      (0 <=? InteroceptiveSignal.deviation sg)%float = true).
Proof.
  split; [|split].
  - unfold InteroceptiveSignal.is_optimal, InteroceptiveSignal.deviation.
    destruct (InteroceptiveSignal.optimal_range sg) as [low high].
    intros H. apply andb_true_iff in H. destruct H as [H1 H2].
    now rewrite (leb_ltb_false _ _ H1), (leb_ltb_false _ _ H2).
  - unfold InteroceptiveSignal.is_optimal, InteroceptiveSignal.deviation.
    destruct (InteroceptiveSignal.optimal_range sg) as [low high]. intros H.
    rewrite (nan_leb_l _ high H), andb_false_r.
    now rewrite (nan_ltb_l _ low H), (nan_ltb_r high _ H).
  - intros Hv Hl Hh. apply FloatSigns.nn_leb. now apply deviation_sign.
Qed.

(** The energy signal fallen to 0.3, below its range (0.6, 0.9). *)
Lemma deviation_of_signal_witness :
  let sg := InteroceptiveSignal.mk "energy" 0.3%float (0.6, 0.9)%float 0.9%float in
  in01 (InteroceptiveSignal.current_value sg) = true
  /\ in01 (fst (InteroceptiveSignal.optimal_range sg)) = true
  /\ in01 (snd (InteroceptiveSignal.optimal_range sg)) = true
  /\ InteroceptiveSignal.is_optimal sg = false
  /\ (0 <=? InteroceptiveSignal.deviation sg)%float = true.
Proof.
  intros sg. repeat (split; [vm_compute; reflexivity|]).
  exact (proj2 (proj2 (deviation_of_signal sg)) eq_refl eq_refl eq_refl).
Defined.

(** X16. When every signal is within its optimal range, the interoceptive
    tension is exactly 0.0, so the total that [update_drives] returns is
    the sum over the drives alone plus 0.0. *)
Theorem interoceptive_tension_zero (self : AffectiveCore.t) :
  forallb (fun entry => InteroceptiveSignal.is_optimal (snd entry))
          (interoceptive_signals self) = true ->
  _compute_interoceptive_tension self = 0%float
  /\ forall external_stimuli delta_time total,
       snd (update_drives self external_stimuli delta_time) = Ok total ->
       exists drive_total,
         snd (update_drives_loop (drives self) external_stimuli delta_time 0)
         = Ok drive_total
         /\ total = (drive_total + 0)%float.
Proof.
  intros H.
  assert (E : _compute_interoceptive_tension self = 0%float).
  { unfold _compute_interoceptive_tension. generalize 0%float.
    induction (interoceptive_signals self) as [|[nm sg] rest IH]; intros acc; [reflexivity|].
    cbn [forallb snd] in H. apply andb_true_iff in H. destruct H as [Ho Hrest].
    cbn [fold_left]. rewrite Ho. cbn [negb]. now apply IH. }
  split; [exact E|].
  intros external_stimuli delta_time total Hr. rewrite update_drives_result in Hr.
  destruct (snd (update_drives_loop (drives self) external_stimuli delta_time 0))
    as [t|e]; [|discriminate].
  exists t. split; [reflexivity|]. rewrite E in Hr. now injection Hr as <-.
Qed.

(** The fresh core has all four signals within range. *)
Lemma interoceptive_tension_zero_witness :
  forallb (fun entry => InteroceptiveSignal.is_optimal (snd entry))
          (interoceptive_signals init) = true
  /\ _compute_interoceptive_tension init = 0%float.
Proof.
  split; [reflexivity|].
  exact (proj1 (interoceptive_tension_zero init eq_refl)).
Defined.

(** X17. After every sequence of calls free of NaN on a fresh core, the
    stored total tension is a non-negative number (never negative, never
    NaN), and so is the total returned by any further [update_drives] call
    free of NaN. *)
Theorem tension_nonnegative (ops : list op) :
  forallb nan_free ops = true ->
  (0 <=? current_tension (run ops))%float = true
  /\ forall external_stimuli delta_time total,
       nan_free (UpdateDrives external_stimuli delta_time) = true ->
       snd (update_drives (run ops) external_stimuli delta_time) = Ok total ->
       (0 <=? total)%float = true.
Proof.
  assert (Hstep : forall ops', forallb nan_free ops' = true ->
            forall s dt total,
              nan_free (UpdateDrives s dt) = true ->
              snd (update_drives (run ops') s dt) = Ok total ->
              (0 <=? total)%float = true).
  { intros ops' Hops s dt total Hn Hr.
    destruct (run_num_inv ops' Hops) as [Hd Hs].
    pose proof (run_signal_constants ops') as Hc.
    rewrite update_drives_result in Hr.
    pose proof (update_drives_loop_nn s dt (effect_ok_all _ _ Hn) (drives (run ops'))
                  0%float Hd I) as Hl.
    destruct (snd (update_drives_loop (drives (run ops')) s dt 0)) as [t|e];
      [|discriminate].
    injection Hr as <-. apply FloatSigns.nn_leb. rewrite add_spec.
    apply FloatSigns.SFadd_nn; [exact Hl|].
    apply interoceptive_tension_nn; [exact Hs|].
    now apply (constants_ok_preserved _ _ Hc). }
  intros Hops. split; [|now apply Hstep].
  clear Hstep. 
  apply (run_invariant
           (fun self => (0 <=? current_tension self)%float = true
                        /\ wf self /\ num_inv self
                        /\ forallb signal_constants_ok (interoceptive_signals self) = true)
           nan_free); [ | | exact Hops].
  - repeat split; try reflexivity; repeat constructor.
  - intros self o Ho (Ht & Hwf & Hnum & Hc).
    destruct (step_num_inv self o Ho (conj Hwf Hnum)) as [Hwf' Hnum'].
    assert (Hc' : forallb signal_constants_ok (interoceptive_signals (step self o)) = true).
    { apply (constants_ok_preserved (interoceptive_signals self)); [|exact Hc].
      destruct o; cbn [step]; try reflexivity.
      - now destruct (update_drives_frame self external_stimuli delta_time) as (-> & _).
      - rewrite update_interoception_signals. apply update_interoception_loop_constants.
      - now destruct (advance_frame self) as (-> & _). }
    split; [|repeat split; try apply Hwf'; try apply Hnum'; exact Hc'].
    destruct o; cbn [step]; try exact Ht.
    + destruct (snd (update_drives self external_stimuli delta_time)) as [total|e] eqn:E.
      * destruct (update_drives_ok_history _ _ _ _ E) as (-> & _).
        rewrite update_drives_result in E. destruct Hnum as [Hd Hs].
        pose proof (update_drives_loop_nn external_stimuli delta_time
                      (effect_ok_all _ _ Ho) (drives self) 0%float Hd I) as Hl.
        destruct (snd (update_drives_loop (drives self) external_stimuli delta_time 0))
          as [t|e]; [|discriminate].
        injection E as <-. apply FloatSigns.nn_leb. rewrite add_spec.
        apply FloatSigns.SFadd_nn; [exact Hl|].
        now apply interoceptive_tension_nn.
      * now destruct (update_drives_raise_frame _ _ _ _ E) as (_ & ->).
    + now destruct (update_interoception_frame self internal_changes)
        as (_ & _ & _ & -> & _).
    + now destruct (advance_frame self) as (_ & _ & _ & ->).
Qed.

(** The demonstration call, followed by a fall of energy below its range. *)
Lemma tension_nonnegative_witness :
  let ops := [UpdateDrives [(KDrive SEEK, PyFloat 0.3); (KDrive AVOID, PyFloat 0.4);
                            (KDrive REST, PyFloat (-0.2))] 1%float;
              UpdateInteroception [(KStr "energy", PyFloat (-0.5))];
              UpdateDrives [] 1%float]%float in
  forallb nan_free ops = true
  /\ (0 <=? current_tension (run ops))%float = true.
Proof.
  split; [vm_compute; reflexivity|].
  apply (tension_nonnegative
           [UpdateDrives [(KDrive SEEK, PyFloat 0.3); (KDrive AVOID, PyFloat 0.4);
                          (KDrive REST, PyFloat (-0.2))] 1%float;
            UpdateInteroception [(KStr "energy", PyFloat (-0.5))];
            UpdateDrives [] 1%float]%float).
  vm_compute; reflexivity.
Defined.

(** ** Saturation and rest *)
Section Saturation.

Import FloatDefs FloatFacts FloatSigns.
Implicit Types (self : AffectiveCore.t) (st : DriveState.t).

Lemma add_infinity x k : bnd k (Prim2SF x) -> (x + infinity)%float = infinity.
Proof.
  intros H. apply Prim2SF_inj. rewrite add_spec.
  change (Prim2SF infinity) with (S754_infinity false).
  destruct (Prim2SF x); cbn in H; try tauto; reflexivity.
Qed.

Lemma add_neg_infinity x k : bnd k (Prim2SF x) -> (x + neg_infinity)%float = neg_infinity.
Proof.
  intros H. apply Prim2SF_inj. rewrite add_spec.
  change (Prim2SF neg_infinity) with (S754_infinity true).
  destruct (Prim2SF x); cbn in H; try tauto; reflexivity.
Qed.

(** Numerically equal floats are the same float, or two zeros. *)
Lemma eqb_cases a b :
  (a =? b)%float = true ->
  a = b \/ (exists s s', Prim2SF a = S754_zero s /\ Prim2SF b = S754_zero s').
Proof.
  rewrite eqb_spec. unfold SFeqb. intros H.
  destruct (Prim2SF a) as [[]|[]| |[] ma ea] eqn:Ea,
           (Prim2SF b) as [[]|[]| |[] mb eb] eqn:Eb;
    cbn [SFcompare] in H; try discriminate;
    try (right; do 2 eexists; split; reflexivity);
    left; apply Prim2SF_inj; rewrite Ea, Eb; try reflexivity;
    destruct (Z.compare_spec ea eb); try discriminate; subst;
    change (Pos.compare_cont Eq ma mb) with (Pos.compare ma mb) in H;
    destruct (Pos.compare_spec ma mb); try discriminate; subst; reflexivity.
Qed.

Lemma zero_cases x s : Prim2SF x = S754_zero s -> x = 0%float \/ x = (-0)%float.
Proof.
  intros H. rewrite <- (SF2Prim_Prim2SF x), H. destruct s; [right | left]; reflexivity.
Qed.

Lemma clip_in01_cases x :
  in01 x = true ->
  clip x 0 1 = x \/ (clip x 0 1 = 0%float /\ (x = 0%float \/ x = (-0)%float)).
Proof.
  intros H. pose proof (in01_not_nan _ H) as Hn.
  unfold in01 in H. apply andb_true_iff in H. destruct H as [H0 H1].
  unfold clip. rewrite Hn.
  destruct (0 <? x)%float eqn:E0.
  - destruct (x <? 1)%float eqn:E1; [now left|].
    left. destruct (eqb_cases _ _ (leb_not_ltb_eqb _ _ H1 E1)) as [E | (s & s' & Ez & _)].
    + exact E.
    + discriminate Ez.
  - right. split; [reflexivity|].
    destruct (eqb_cases _ _ (leb_not_ltb_eqb _ _ H0 E0)) as [E | (s & s' & Ez & _)].
    + now left.
    + exact (zero_cases _ _ Ez).
Qed.

Lemma sub_self x k : bnd k (Prim2SF x) -> (x - x)%float = 0%float.
Proof.
  intros H. apply Prim2SF_inj. rewrite sub_spec.
  change (Prim2SF 0) with (S754_zero false).
  destruct (Prim2SF x) as [s|s| |s m e]; cbn in H; try tauto.
  - now destruct s.
  - unfold SF64sub. cbn [SFsub]. now rewrite Z.sub_diag.
Qed.

(** Adding a zero to a finite value gives the value, or a zero for a
    zero. *)
Lemma add_zero x z k s :
  bnd k (Prim2SF x) -> Prim2SF z = S754_zero s ->
  (x + z)%float = x
  \/ (exists s1 s2, Prim2SF x = S754_zero s1 /\ Prim2SF (x + z) = S754_zero s2).
Proof.
  intros Hx Hz.
  destruct (Prim2SF x) as [sx|sx| |sx m e] eqn:Ex; cbn in Hx; try tauto.
  - right. exists sx. rewrite add_spec, Ex, Hz. unfold SF64add. cbn [SFadd].
    destruct sx, s; eauto.
  - left. apply Prim2SF_inj. rewrite add_spec, Ex, Hz. reflexivity.
Qed.

(** What [update] clamps when the drive rests at its set point and the
    stimulus effect is a zero. *)
Lemma resting_sum level effect :
  in01 level = true -> (effect =? 0)%float = true ->
  let sum := (level + (level - level) * 0.1 + effect)%float in
  sum = level \/ ((sum = 0%float \/ sum = (-0)%float)
                  /\ (level = 0%float \/ level = (-0)%float)).
Proof.
  intros Hl He sum. subst sum.
  pose proof (in01_bnd _ Hl) as Hb.
  rewrite (sub_self _ _ Hb). change (0 * 0.1)%float with 0%float.
  assert (Hez : exists s, Prim2SF effect = S754_zero s).
  { destruct (eqb_cases _ _ He) as [-> | (s & _ & Hs & _)]; [now exists false | now exists s]. }
  destruct Hez as [se Hse].
  destruct (add_zero level 0%float 1 false Hb eq_refl) as [E1 | (s1 & s2 & Z1 & Z2)].
  - rewrite E1. destruct (add_zero level effect 1 se Hb Hse) as [E2 | (s1 & s2 & Z1 & Z2)].
    + now left.
    + right. split; [exact (zero_cases _ _ Z2) | exact (zero_cases _ _ Z1)].
  - right. split; [|exact (zero_cases _ _ Z1)].
    assert (Hb2 : bnd 1 (Prim2SF (level + 0))) by (rewrite Z2; exact I).
    destruct (add_zero (level + 0)%float effect 1 se Hb2 Hse) as [E2 | (s3 & s4 & _ & Z4)].
    + rewrite E2. exact (zero_cases _ _ Z2).
    + exact (zero_cases _ _ Z4).
Qed.

End Saturation.

(** X18. In every core reached by calls free of NaN, a drive update whose
    stimulus effect [stimulus * delta_time] is plus infinity leaves the level
    at exactly 1.0, and one whose effect is minus infinity leaves it at
    exactly 0.0: infinite stimuli saturate the level and are not rejected;
    the same holds for a signal changed by plus or minus infinity. *)
Theorem infinite_effect_saturates (ops : list op) :
  forallb nan_free ops = true ->
  (forall k st stimulus delta_time,
     In (k, st) (drives (run ops)) ->
     let st' := fst (DriveState.update st (PyFloat stimulus) delta_time) in
     ((stimulus * delta_time)%float = infinity ->
      DriveState.current_level st' = 1%float)
     /\ ((stimulus * delta_time)%float = neg_infinity ->
         DriveState.current_level st' = 0%float))
  /\ (forall nm sg,
        signal_of (interoceptive_signals (run ops)) nm = Some sg ->
        signal_of (interoceptive_signals
                     (fst (update_interoception (run ops) [(KStr nm, PyFloat infinity)])))
                  nm = Some (with_value sg 1%float)
        /\ signal_of (interoceptive_signals
                        (fst (update_interoception (run ops)
                                [(KStr nm, PyFloat neg_infinity)])))
                     nm = Some (with_value sg 0%float)).
Proof.
  intros Hops. destruct (run_num_inv ops Hops) as [Hd Hs].
  rewrite Forall_forall in Hd, Hs. split.
  - intros k st stimulus delta_time Hin st'. subst st'.
    rewrite update_numeric. cbn [fst]. cbv zeta. cbn [DriveState.current_level].
    destruct (Hd _ Hin) as (Hl & Ho & _). cbn [snd] in Hl, Ho.
    pose proof (FloatFacts.homeostatic_level_bnd _ _ Hl Ho) as Hb.
    split; intros ->.
    + now rewrite (add_infinity _ _ Hb).
    + now rewrite (add_neg_infinity _ _ Hb).
  - intros nm sg Hsg.
    assert (Hin : In (nm, sg) (interoceptive_signals (run ops))).
    { clear -Hsg. induction (interoceptive_signals (run ops)) as [|[n0 s0] rest IH];
        cbn [signal_of] in Hsg; [discriminate|].
      destruct (String.eqb_spec n0 nm) as [->|]; [injection Hsg as ->; now left|].
      right. now apply IH. }
    assert (Hhas : has_signal (interoceptive_signals (run ops)) (KStr nm) = true).
    { destruct (has_signal (interoceptive_signals (run ops)) (KStr nm)) eqn:E;
        [reflexivity|].
      rewrite (has_signal_signal_of _ _ E) in Hsg. discriminate. }
    pose proof (FloatFacts.in01_bnd _ (Hs _ Hin)) as Hb. cbn [snd] in Hb.
    unfold update_interoception. cbn [update_interoception_loop]. rewrite Hhas.
    cbn [fst set_interoceptive_signals interoceptive_signals].
    rewrite !signal_of_update_signal, String.eqb_refl, Hsg. cbn [option_map].
    now rewrite (add_infinity _ _ Hb), (add_neg_infinity _ _ Hb).
Qed.

(** After a call with an infinite stimulus for Rest. *)
Lemma infinite_effect_saturates_witness :
  let ops := [UpdateDrives [(KDrive REST, PyFloat infinity)] 1%float] in
  forallb nan_free ops = true
  /\ option_map DriveState.current_level (drive_of (drives (run ops)) REST) = Some 1%float
  /\ (forall k st, In (k, st) (drives (run ops)) ->
        (neg_infinity * 1)%float = neg_infinity ->
        DriveState.current_level (fst (DriveState.update st (PyFloat neg_infinity) 1%float))
        = 0%float).
Proof.
  split; [vm_compute; reflexivity|]. split; [vm_compute; reflexivity|].
  intros k st Hin.
  exact (proj2 (proj1 (infinite_effect_saturates
                         [UpdateDrives [(KDrive REST, PyFloat infinity)] 1%float]
                         eq_refl)
                      k st neg_infinity 1%float Hin)).
Defined.

(** X19. A drive that rests at its set point (level equal to its optimal
    level, inside [0, 1]) and receives a stimulus effect that is a zero
    stays there: after the update the level is numerically the same and the
    urgency is exactly 0.0. *)
Theorem rest_at_set_point (st : DriveState.t) (stimulus delta_time : float) :
  in01 (DriveState.current_level st) = true ->
  DriveState.optimal_level st = DriveState.current_level st ->
  (stimulus * delta_time =? 0)%float = true ->
  let st' := fst (DriveState.update st (PyFloat stimulus) delta_time) in
  (DriveState.current_level st' =? DriveState.current_level st)%float = true
  /\ DriveState.urgency st' = 0%float
  /\ DriveState.tension st' = 0%float.
Proof.
  intros Hl Ho He st'. subst st'. rewrite update_numeric. cbn [fst]. cbv zeta.
  unfold DriveState.tension.
  cbn [DriveState.current_level DriveState.urgency DriveState.optimal_level].
  rewrite Ho.
  set (level := DriveState.current_level st) in *.
  pose proof (FloatFacts.in01_bnd _ Hl) as Hb.
  destruct (resting_sum level _ Hl He) as [-> | [Hsum Hzero]].
  - destruct (clip_in01_cases level Hl) as [-> | [-> Hz]].
    + rewrite (sub_self _ _ Hb). repeat split.
      pose proof (FloatFacts.in01_not_nan _ Hl) as Hn. unfold is_nan in Hn.
      now apply negb_false_iff in Hn.
    + destruct Hz as [-> | ->]; repeat split.
  - destruct Hsum as [-> | ->]; destruct Hzero as [-> | ->]; repeat split.
Qed.

(** Care at its stage-3 set point 0.5 with no stimulus. *)
Lemma rest_at_set_point_witness :
  let st := DriveState.mk CARE 0.5 0.5 0.1 [] in
  in01 (DriveState.current_level st) = true
  /\ DriveState.optimal_level st = DriveState.current_level st
  /\ (0 * 1 =? 0)%float = true
  /\ DriveState.urgency (fst (DriveState.update st (PyFloat 0) 1%float)) = 0%float.
Proof.
  split; [reflexivity|]. split; [reflexivity|]. split; [reflexivity|].
  exact (proj1 (proj2 (rest_at_set_point (DriveState.mk CARE 0.5 0.5 0.1 []) 0%float 1%float
                         eq_refl eq_refl eq_refl))).
Defined.
